(** * Terrarium: the gesture-to-transform behaviour of [script.js]

    A shallow embedding of the drag / wheel / right-click / pinch / keyboard
    handlers of [src/script.js], and the properties of the specification
    stated over it.

    Modelling conventions.
    - A JavaScript number is [num]: an exact rational, [NaN], or a signed
      infinity.  Arithmetic on finite values is exact (IEEE-754 rounding and
      the sign of zero are not represented); the special values follow the
      IEEE rules the handlers can run into ([0/0], [x/0], [Infinity * x],
      comparisons with [NaN], [Math.min] / [Math.max] propagating [NaN]).
    - Inline style values and the status text are strings, built and
      re-parsed exactly as the script does (template literals, the two
      regular expressions, [parseFloat]).  A number prints as JavaScript
      prints it as long as its decimal expansion has at most twenty digits
      after the point; a longer expansion is cut there.
    - [Math.sqrt], [Math.atan2] and [Math.PI] belong to the host and are
      taken as a [Host] record.
    - The document is a finite map from element ids to the per-element
      state: its inline style and the variables captured by the closures
      that [makeElementDraggable] creates.
    - The inline style holds each string as the script assigns it.  A
      browser hands back the declaration it has parsed instead: its numbers
      are written out again, possibly rounded, and a declaration that is not
      valid CSS is dropped.  A statement that depends on a number being read
      back is therefore made for values that come back as they were written
      (whole numbers of at most six digits), or over [browser_run], where
      the transform an event assigns may be handed back rounded or dropped.
      Likewise a statement about the steps of 0.05 and 0.1 is made as a
      bound that the rounding of the sum cannot break. *)

From Stdlib Require Import ZArith QArith Qround Lqa Lia String Ascii List Bool.
From stdpp Require Import gmap strings.

Local Open Scope Z_scope.

(** ** Numbers *)

Inductive num : Type :=
  | NaN
  | Inf (neg : bool)
  | Fin (q : Q).

(** Finite results are kept in lowest terms, so that equal values are equal
    terms. *)
Definition fin (q : Q) : num := Fin (Qred q).

Definition Qneg_b (q : Q) : bool := Qnum q <? 0.
Definition Qzero_b (q : Q) : bool := Qnum q =? 0.

(** Truncation towards zero, as in the quotient of [%]. *)
Definition Qtrunc (q : Q) : Z := if Qneg_b q then Qceiling q else Qfloor q.

Definition num_add (a b : num) : num :=
  match a, b with
  | NaN, _ | _, NaN => NaN
  | Inf s, Inf t => if Bool.eqb s t then Inf s else NaN
  | Inf s, Fin _ => Inf s
  | Fin _, Inf t => Inf t
  | Fin p, Fin q => fin (p + q)
  end.

Definition num_sub (a b : num) : num :=
  match a, b with
  | NaN, _ | _, NaN => NaN
  | Inf s, Inf t => if Bool.eqb s t then NaN else Inf s
  | Inf s, Fin _ => Inf s
  | Fin _, Inf t => Inf (negb t)
  | Fin p, Fin q => fin (p - q)
  end.

Definition num_mul (a b : num) : num :=
  match a, b with
  | NaN, _ | _, NaN => NaN
  | Inf s, Inf t => Inf (xorb s t)
  | Inf s, Fin q | Fin q, Inf s =>
      if Qzero_b q then NaN else Inf (xorb s (Qneg_b q))
  | Fin p, Fin q => fin (p * q)
  end.

(** Division; a zero divisor is the positive zero. *)
Definition num_div (a b : num) : num :=
  match a, b with
  | NaN, _ | _, NaN => NaN
  | Inf _, Inf _ => NaN
  | Inf s, Fin q => Inf (xorb s (Qneg_b q))
  | Fin _, Inf _ => Fin 0
  | Fin p, Fin q =>
      if Qzero_b q
      then (if Qzero_b p then NaN else Inf (Qneg_b p))
      else fin (p / q)
  end.

(** The remainder operator [%]: the result takes the sign of the dividend. *)
Definition num_rem (a b : num) : num :=
  match a, b with
  | Fin p, Fin q =>
      if Qzero_b q then NaN else fin (p - q * inject_Z (Qtrunc (p / q)))
  | Fin p, Inf _ => Fin p
  | _, _ => NaN
  end.

(** [a <= b] on numbers that are not [NaN]. *)
Definition num_le_b (a b : num) : bool :=
  match a, b with
  | NaN, _ | _, NaN => false
  | Inf true, _ => true
  | _, Inf false => true
  | Inf false, _ => false
  | _, Inf true => false
  | Fin p, Fin q => Qle_bool p q
  end.

(** The comparison [a > b]; false as soon as an operand is [NaN]. *)
Definition num_gt (a b : num) : bool :=
  match a, b with
  | NaN, _ | _, NaN => false
  | _, _ => negb (num_le_b a b)
  end.

Definition Math_min (a b : num) : num :=
  match a, b with
  | NaN, _ | _, NaN => NaN
  | _, _ => if num_le_b a b then a else b
  end.

Definition Math_max (a b : num) : num :=
  match a, b with
  | NaN, _ | _, NaN => NaN
  | _, _ => if num_le_b a b then b else a
  end.

(** [a || b] on numbers: [NaN] and zero are falsy. *)
Definition num_or (a b : num) : num :=
  match a with
  | NaN => b
  | Inf _ => a
  | Fin q => if Qzero_b q then b else a
  end.

(** The host's [Math] functions used by the script. *)
Record Host : Type := {
  Math_sqrt : num -> num;
  Math_atan2 : num -> num -> num;
  Math_PI : num
}.

(** ** Number to string: [`${x}`] and [x + 'px'] *)

Definition digit_char (d : Z) : ascii := ascii_of_nat (48 + Z.to_nat d).

Fixpoint int_digits (fuel : nat) (n : Z) (acc : string) : string :=
  match fuel with
  | O => acc
  | S f =>
      let acc' := String (digit_char (n mod 10)) acc in
      if n <? 10 then acc' else int_digits f (n / 10) acc'
  end.

(** Decimal digits of a non-negative integer. *)
Definition int_string (n : Z) : string :=
  int_digits (S (Z.to_nat (Z.log2 n))) n "".

(** Digits after the decimal point of [r / d], for [0 <= r < d]; the
    expansion stops when it terminates and is cut after [fuel] digits. *)
Fixpoint frac_digits (fuel : nat) (r d : Z) : string :=
  match fuel with
  | O => ""
  | S f =>
      if r =? 0 then ""
      else String (digit_char (10 * r / d)) (frac_digits f (10 * r mod d) d)
  end.

Definition frac_limit : nat := 20.

(** Positional notation of a non-negative rational. *)
Definition plain_string (q : Q) : string :=
  let d := Zpos (Qden q) in
  let r := Qnum q mod d in
  int_string (Qnum q / d) +:+
  (if r =? 0 then "" else "." +:+ frac_digits frac_limit r d).

(** Largest [e] (up to [fuel]) with [10^e <= q], for [q >= 1]. *)
Fixpoint exp_up (fuel : nat) (q : Q) : Z :=
  match fuel with
  | O => 0
  | S f => if Qle_bool 10 q then 1 + exp_up f (q / 10) else 0
  end.

(** Least [e] (up to [fuel]) with [1 <= q * 10^e], for [0 < q < 1]. *)
Fixpoint exp_down (fuel : nat) (q : Q) : Z :=
  match fuel with
  | O => 0
  | S f => if Qle_bool 1 q then 0 else 1 + exp_down f (q * 10)
  end.

Definition Qpow10 (e : Z) : Q := inject_Z (10 ^ e).

(** Number::toString for a positive finite value: exponent notation at and
    above 1e21 and below 1e-6, positional notation in between. *)
Definition pos_string (q : Q) : string :=
  if Qle_bool (Qpow10 21) q then
    let e := exp_up (S (Z.to_nat (Z.log2 (Qnum q)))) q in
    plain_string (Qred (q / Qpow10 e)) +:+ "e+" +:+ int_string e
  else if Qle_bool (1 # 1000000) q then plain_string q
  else
    let e := exp_down (S (Z.to_nat (Z.log2 (Zpos (Qden q))))) q in
    plain_string (Qred (q * Qpow10 e)) +:+ "e-" +:+ int_string e.

Definition toString (x : num) : string :=
  match x with
  | NaN => "NaN"
  | Inf false => "Infinity"
  | Inf true => "-Infinity"
  | Fin q =>
      if Qzero_b q then "0"
      else if Qneg_b q then "-" +:+ pos_string (Qred (- q))
      else pos_string q
  end.

(** ** String to number: [parseFloat] *)

Definition is_digit (c : ascii) : bool :=
  (48 <=? nat_of_ascii c)%nat && (nat_of_ascii c <=? 57)%nat.

Definition digit_val (c : ascii) : Z := Z.of_nat (nat_of_ascii c) - 48.

(** Reads a maximal run of digits: its value on top of [acc], its length on
    top of [cnt], and the rest of the string. *)
Fixpoint read_digits (s : string) (acc : Z) (cnt : nat) : Z * nat * string :=
  match s with
  | String c s' =>
      if is_digit c then read_digits s' (10 * acc + digit_val c) (S cnt)
      else (acc, cnt, s)
  | EmptyString => (acc, cnt, s)
  end.

Definition is_space (c : ascii) : bool :=
  let n := nat_of_ascii c in
  (n =? 32)%nat || ((9 <=? n)%nat && (n <=? 13)%nat).

Fixpoint skip_spaces (s : string) : string :=
  match s with
  | String c s' => if is_space c then skip_spaces s' else s
  | EmptyString => s
  end.

(** An optional sign. *)
Definition read_sign (s : string) : bool * string :=
  match s with
  | String "-" s' => (true, s')
  | String "+" s' => (false, s')
  | _ => (false, s)
  end.

(** The exponent part [e[+-]ddd], ignored unless it has a digit. *)
Definition read_exponent (s : string) : Z :=
  match s with
  | String c s' =>
      if (Ascii.eqb c "e" || Ascii.eqb c "E")%bool then
        let '(neg, s'') := read_sign s' in
        let '(x, nx, _) := read_digits s'' 0 O in
        match nx with
        | O => 0
        | S _ => if neg then - x else x
        end
      else 0
  | EmptyString => 0
  end.

Definition Qscale10 (q : Q) (e : Z) : Q :=
  if e <? 0 then q / Qpow10 (- e) else q * Qpow10 e.

(** [parseFloat]: leading white space, then the longest prefix that is a
    decimal literal; [NaN] when there is none. *)
Definition parseFloat (s : string) : num :=
  let '(neg, s1) := read_sign (skip_spaces s) in
  if String.prefix "Infinity" s1 then Inf neg
  else
    let '(i, ni, r1) := read_digits s1 0 O in
    let '(f, nf, r2) :=
      match r1 with
      | String "." r => read_digits r 0 O
      | _ => (0, O, r1)
      end in
    match ni, nf with
    | O, O => NaN
    | _, _ =>
        let m := (inject_Z i + inject_Z f / Qpow10 (Z.of_nat nf))%Q in
        let v := Qscale10 m (read_exponent r2) in
        fin (if neg then - v else v)
    end.

(** ** The two regular expressions *)

Fixpoint span_class (cls : ascii -> bool) (s : string) : string * string :=
  match s with
  | String c s' =>
      if cls c then let '(run, rest) := span_class cls s' in (String c run, rest)
      else ("", s)
  | EmptyString => ("", s)
  end.

Fixpoint drop_string (n : nat) (s : string) : string :=
  match n, s with
  | O, _ => s
  | S n', String _ s' => drop_string n' s'
  | S _, EmptyString => s
  end.

(** A match of [pre (cls+) post] anchored at the start of [s]; the result is
    the captured run.  No character of either class used below can start
    [post], so the longest run is the only one backtracking could accept. *)
Definition match_here (pre : string) (cls : ascii -> bool) (post s : string)
  : option string :=
  if String.prefix pre s then
    let '(run, rest) := span_class cls (drop_string (String.length pre) s) in
    match run with
    | EmptyString => None
    | _ => if String.prefix post rest then Some run else None
    end
  else None.

(** The leftmost match, as [String.prototype.match] finds it. *)
Fixpoint regex_capture (pre : string) (cls : ascii -> bool) (post s : string)
  : option string :=
  match match_here pre cls post s with
  | Some run => Some run
  | None =>
      match s with
      | String _ s' => regex_capture pre cls post s'
      | EmptyString => None
      end
  end.

Definition scale_class (c : ascii) : bool := is_digit c || Ascii.eqb c ".".
Definition rotate_class (c : ascii) : bool :=
  is_digit c || Ascii.eqb c "." || Ascii.eqb c "-".

(** [transform.match(/scale\(([\d.]+)\)/)], group 1. *)
Definition scaleMatch (transform : string) : option string :=
  regex_capture "scale(" scale_class ")" transform.

(** [transform.match(/rotate\(([\d.-]+)deg\)/)], group 1. *)
Definition rotateMatch (transform : string) : option string :=
  regex_capture "rotate(" rotate_class "deg)" transform.

(** ** Document state *)

(** The inline style of an element: the properties the script reads or
    writes. *)
Record Style : Type := {
  style_position : string;
  style_top : string;
  style_left : string;
  style_transform : string;
  var_scale : string;       (* custom property --scale *)
  var_rotation : string     (* custom property --rotation *)
}.

(** The variables captured by the closures of [makeElementDraggable]. *)
Record Closure : Type := {
  currentX : num;
  currentY : num;
  initialScale : num;
  initialRotation : num;
  scale : num;
  rotation : num;
  touchStartDistance : num;
  touchStartAngle : num
}.

Record Elem : Type := {
  style : Style;
  data_dragging : option string;   (* the attribute data-dragging *)
  vars : Closure
}.

(** [selectedElement], the text of the status region (absent when the
    document has no element [status]), and the four handler slots of
    [document], each holding the id of the element whose closure owns the
    installed handler. *)
Record World : Type := {
  elems : gmap string Elem;
  selectedElement : option string;
  statusText : option string;
  onpointermove : option string;
  onpointerup : option string;
  onwheel : option string;
  oncontextmenu : option string
}.

(** Client coordinates of a pointer event or of one touch point. *)
Record Point : Type := { clientX : Q; clientY : Q }.

(** What [getBoundingClientRect] and the scroll offsets of the parent answer
    at a pointer-down. *)
Record Layout : Type := {
  rect_top : Q;
  rect_left : Q;
  parent_top : Q;
  parent_left : Q;
  parent_scrollTop : Q;
  parent_scrollLeft : Q
}.

(** The argument handed to [handlePointerDown]: a pointer event, or a
    [Touch] object, which has no [preventDefault] method. *)
Inductive PointerArg : Type := PointerEventArg | TouchArg.

Inductive event : Type :=
  | Keydown (key : string)
  | Touchstart (target : string) (touches : list Point) (lay : Layout)
  | Touchmove (target : string) (touches : list Point)
  | Touchend (target : string) (touches : list Point)
  | Pointerdown (target : string) (p : Point) (lay : Layout)
  | Pointermove (p : Point)
  | Pointerup
  | Wheel (target : string) (deltaY : Q)
  | Contextmenu (target : string).

(** *** Field updates *)

Definition with_transform (t : string) (st : Style) : Style :=
  {| style_position := style_position st; style_top := style_top st;
     style_left := style_left st; style_transform := t;
     var_scale := var_scale st; var_rotation := var_rotation st |}.

Definition with_top_left (t l : string) (st : Style) : Style :=
  {| style_position := style_position st; style_top := t;
     style_left := l; style_transform := style_transform st;
     var_scale := var_scale st; var_rotation := var_rotation st |}.

Definition with_vars_css (s r : string) (st : Style) : Style :=
  {| style_position := style_position st; style_top := style_top st;
     style_left := style_left st; style_transform := style_transform st;
     var_scale := s; var_rotation := r |}.

Definition with_current (x y : num) (c : Closure) : Closure :=
  {| currentX := x; currentY := y;
     initialScale := initialScale c; initialRotation := initialRotation c;
     scale := scale c; rotation := rotation c;
     touchStartDistance := touchStartDistance c;
     touchStartAngle := touchStartAngle c |}.

Definition with_scale (s : num) (c : Closure) : Closure :=
  {| currentX := currentX c; currentY := currentY c;
     initialScale := initialScale c; initialRotation := initialRotation c;
     scale := s; rotation := rotation c;
     touchStartDistance := touchStartDistance c;
     touchStartAngle := touchStartAngle c |}.

Definition with_rotation (r : num) (c : Closure) : Closure :=
  {| currentX := currentX c; currentY := currentY c;
     initialScale := initialScale c; initialRotation := initialRotation c;
     scale := scale c; rotation := r;
     touchStartDistance := touchStartDistance c;
     touchStartAngle := touchStartAngle c |}.

Definition with_gesture (d a s r : num) (c : Closure) : Closure :=
  {| currentX := currentX c; currentY := currentY c;
     initialScale := s; initialRotation := r;
     scale := scale c; rotation := rotation c;
     touchStartDistance := d; touchStartAngle := a |}.

Definition with_touchStart (d a : num) (c : Closure) : Closure :=
  with_gesture d a (initialScale c) (initialRotation c) c.

Definition with_style (f : Style -> Style) (el : Elem) : Elem :=
  {| style := f (style el); data_dragging := data_dragging el; vars := vars el |}.

Definition with_closure (f : Closure -> Closure) (el : Elem) : Elem :=
  {| style := style el; data_dragging := data_dragging el; vars := f (vars el) |}.

Definition with_dragging (d : option string) (el : Elem) : Elem :=
  {| style := style el; data_dragging := d; vars := vars el |}.

Definition with_elem (id : string) (el : Elem) (w : World) : World :=
  {| elems := <[id := el]> (elems w); selectedElement := selectedElement w;
     statusText := statusText w; onpointermove := onpointermove w;
     onpointerup := onpointerup w; onwheel := onwheel w;
     oncontextmenu := oncontextmenu w |}.

Definition with_selected (id : string) (w : World) : World :=
  {| elems := elems w; selectedElement := Some id;
     statusText := statusText w; onpointermove := onpointermove w;
     onpointerup := onpointerup w; onwheel := onwheel w;
     oncontextmenu := oncontextmenu w |}.

Definition with_handlers (h : option string) (w : World) : World :=
  {| elems := elems w; selectedElement := selectedElement w;
     statusText := statusText w; onpointermove := h;
     onpointerup := h; onwheel := h; oncontextmenu := h |}.

(** ** The script *)

(** [updateStatus]: nothing happens without a status region. *)
Definition updateStatus (message : string) (w : World) : World :=
  match statusText w with
  | Some _ =>
      {| elems := elems w; selectedElement := selectedElement w;
         statusText := Some message; onpointermove := onpointermove w;
         onpointerup := onpointerup w; onwheel := onwheel w;
         oncontextmenu := oncontextmenu w |}
  | None => w
  end.

Definition draggableIds : list string :=
  map (fun i => "plant" +:+ int_string (Z.of_nat i + 1)) (seq 0 14) ++
  map (fun i => "animal" +:+ int_string (Z.of_nat i + 1)) (seq 0 7).

(** The closure variables as [makeElementDraggable] declares them. *)
Definition fresh_closure : Closure :=
  {| currentX := Fin 0; currentY := Fin 0;
     initialScale := Fin 1; initialRotation := Fin 0;
     scale := Fin 1; rotation := Fin 0;
     touchStartDistance := Fin 0; touchStartAngle := Fin 0 |}.

Definition is_empty_string (s : string) : bool :=
  match s with EmptyString => true | _ => false end.

(** The body of the [forEach] for an element that exists: the closures are
    created, and an element without inline [top] or [left] is centred. *)
Definition init_elem (st : Style) : Elem :=
  {| style :=
       if is_empty_string (style_top st) || is_empty_string (style_left st)
       then {| style_position := "absolute"; style_top := "50%";
               style_left := "50%"; style_transform := "translate(-50%, -50%)";
               var_scale := var_scale st; var_rotation := var_rotation st |}
       else st;
     data_dragging := None;
     vars := fresh_closure |}.

(** The state after the script has run on a document, given as the inline
    styles of its elements by id and the text of the status region. *)
Definition load (doc : gmap string Style) (status : option string) : World :=
  {| elems :=
       foldr (fun id m =>
                match doc !! id with
                | Some st => <[id := init_elem st]> m
                | None => m
                end) ∅ draggableIds;
     selectedElement := None;
     statusText := status;
     onpointermove := None; onpointerup := None;
     onwheel := None; oncontextmenu := None |}.

(** The template literal written by the key handler. *)
Definition key_transform (s r : num) : string :=
  "scale(" +:+ toString s +:+ ") rotate(" +:+ toString r +:+ "deg)".

(** The scale and the rotation the key handler reads back from the
    transform, with its defaults. *)
Definition key_scale (transform : string) : num :=
  match scaleMatch transform with
  | Some c => parseFloat c
  | None => Fin 1
  end.

Definition key_rotation (transform : string) : num :=
  match rotateMatch transform with
  | Some c => parseFloat c
  | None => Fin 0
  end.

(** The [switch] of the key handler: the new scale and rotation, or [None]
    for the [default] branch. *)
Definition key_switch (key : string) (scale0 rotation0 : num) : option (num * num) :=
  if String.eqb key "ArrowUp" then
    Some (Math_min (Fin 3) (num_add scale0 (Fin (1 # 10))), rotation0)
  else if String.eqb key "ArrowDown" then
    Some (Math_max (Fin (3 # 10)) (num_sub scale0 (Fin (1 # 10))), rotation0)
  else if String.eqb key "ArrowLeft" then
    Some (scale0, num_rem (num_add (num_sub rotation0 (Fin 15)) (Fin 360)) (Fin 360))
  else if String.eqb key "ArrowRight" then
    Some (scale0, num_rem (num_add rotation0 (Fin 15)) (Fin 360))
  else None.

(** The [keydown] listener of the document. *)
Definition keydown (key : string) (w : World) : World :=
  match selectedElement w with
  | None => w
  | Some id =>
      match elems w !! id with
      | None => w
      | Some el =>
          let transform := style_transform (style el) in
          match key_switch key (key_scale transform) (key_rotation transform) with
          | Some (s, r) =>
              with_elem id (with_style (with_transform (key_transform s r)) el) w
          | None => w
          end
      end
  end.

(** The template literal written by [updateTransform]. *)
Definition full_transform (s r : num) : string :=
  "translate(-50%, -50%) scale(" +:+ toString s +:+ ") rotate(" +:+
  toString r +:+ "deg)".

Definition updateTransform (el : Elem) : Elem :=
  let s := scale (vars el) in
  let r := rotation (vars el) in
  with_style
    (fun st => with_transform (full_transform s r)
                 (with_vars_css (toString s) (toString r +:+ "deg") st))
    el.

Definition idle_message : string := "Drag a plant or animal to see coordinates.".

Definition handlePointerUp (id : string) (w : World) : World :=
  let w1 :=
    match elems w !! id with
    | Some el => with_elem id (with_dragging None el) w
    | None => w
    end in
  with_handlers None (updateStatus idle_message w1).

(** The first half of [handlePointerDown]: scale and rotation are read back
    from the transform where the patterns match, and kept otherwise. *)
Definition reparse (transform : string) (c : Closure) : Closure :=
  let c1 :=
    match scaleMatch transform with
    | Some m => with_scale (parseFloat m) c
    | None => c
    end in
  match rotateMatch transform with
  | Some m => with_rotation (parseFloat m) c1
  | None => c1
  end.

(** Position tracking starts from the rendered offset when [top] is unset. *)
Definition track_position (lay : Layout) (st : Style) : Style :=
  if is_empty_string (style_top st) || String.eqb (style_top st) "auto"
  then
    with_top_left
      (toString (fin (rect_top lay - parent_top lay + parent_scrollTop lay))
       +:+ "px")
      (toString (fin (rect_left lay - parent_left lay + parent_scrollLeft lay))
       +:+ "px")
      st
  else st.

(** What [handlePointerDown] does to its element. *)
Definition pressed (p : Point) (lay : Layout) (el : Elem) : Elem :=
  {| style := track_position lay (style el);
     data_dragging := Some "true";
     vars := with_current (fin (clientX p)) (fin (clientY p))
               (reparse (style_transform (style el)) (vars el)) |}.

(** [handlePointerDown]; [None] stands for the [TypeError] raised by the
    first statement, [e.preventDefault()], when [e] is a [Touch]. *)
Definition handlePointerDown (arg : PointerArg) (id : string) (p : Point)
    (lay : Layout) (w : World) : option World :=
  match arg with
  | TouchArg => None
  | PointerEventArg =>
      match elems w !! id with
      | None => Some w
      | Some el => Some (with_handlers (Some id) (with_elem id (pressed p lay el) w))
      end
  end.

(** The position the move handler reads: [parseFloat(...) || 0]. *)
Definition position_top (el : Elem) : num :=
  num_or (parseFloat (style_top (style el))) (Fin 0).

Definition position_left (el : Elem) : num :=
  num_or (parseFloat (style_left (style el))) (Fin 0).

(** What [handlePointerMove] does to its element. *)
Definition moved (p : Point) (el : Elem) : Elem :=
  let c := vars el in
  let moveX := num_sub (currentX c) (fin (clientX p)) in
  let moveY := num_sub (currentY c) (fin (clientY p)) in
  {| style :=
       with_top_left (toString (num_sub (position_top el) moveY) +:+ "px")
                     (toString (num_sub (position_left el) moveX) +:+ "px")
                     (style el);
     data_dragging := data_dragging el;
     vars := with_current (fin (clientX p)) (fin (clientY p)) c |}.

Definition drag_message (id : string) (x y : num) : string :=
  "Dragging " +:+ id +:+ " | X:" +:+ toString x +:+ ", Y:" +:+ toString y.

Definition handlePointerMove (id : string) (p : Point) (w : World) : World :=
  match elems w !! id with
  | None => w
  | Some el =>
      with_elem id (moved p el)
        (updateStatus (drag_message id (fin (clientX p)) (fin (clientY p))) w)
  end.

Definition clamp_scale (s : num) : num :=
  Math_max (Fin (3 # 10)) (Math_min (Fin 3) s).

(** What [handleWheel] does to its element. *)
Definition wheeled (deltaY : Q) (el : Elem) : Elem :=
  let s1 :=
    num_add (scale (vars el))
      (if num_gt (fin deltaY) (Fin 0) then Fin (-1 # 20) else Fin (1 # 20)) in
  updateTransform (with_closure (with_scale (clamp_scale s1)) el).

Definition handleWheel (id target : string) (deltaY : Q) (w : World) : World :=
  if String.eqb target id then
    match elems w !! id with
    | None => w
    | Some el => with_elem id (wheeled deltaY el) w
    end
  else w.

(** What [handleRightClick] does to its element. *)
Definition turned (el : Elem) : Elem :=
  let r := num_rem (num_add (rotation (vars el)) (Fin 15)) (Fin 360) in
  updateTransform (with_closure (with_rotation r) el).

Definition handleRightClick (id target : string) (w : World) : World :=
  if String.eqb target id then
    match elems w !! id with
    | None => w
    | Some el => with_elem id (turned el) w
    end
  else w.

Section Gestures.

Variable host : Host.

Definition getDistance (p1 p2 : Point) : num :=
  let dx := num_sub (fin (clientX p1)) (fin (clientX p2)) in
  let dy := num_sub (fin (clientY p1)) (fin (clientY p2)) in
  Math_sqrt host (num_add (num_mul dx dx) (num_mul dy dy)).

Definition getAngle (p1 p2 : Point) : num :=
  let dx := num_sub (fin (clientX p2)) (fin (clientX p1)) in
  let dy := num_sub (fin (clientY p2)) (fin (clientY p1)) in
  num_mul (Math_atan2 host dy dx) (num_div (Fin 180) (Math_PI host)).

(** The two-finger branch of the [touchstart] listener, on its element. *)
Definition gesture_started (t1 t2 : Point) (el : Elem) : Elem :=
  with_closure
    (with_gesture (getDistance t1 t2) (getAngle t1 t2)
                  (scale (vars el)) (rotation (vars el))) el.

(** The [touchstart] listener of element [id]. *)
Definition touchstart (id : string) (touches : list Point) (lay : Layout)
    (w : World) : World :=
  match elems w !! id with
  | None => w
  | Some el =>
      match touches with
      | [t0] =>
          let w1 := with_selected id w in
          match handlePointerDown TouchArg id t0 lay w1 with
          | Some w2 => w2
          | None => w1
          end
      | [t1; t2] =>
          with_elem id (gesture_started t1 t2 el) (with_selected id w)
      | _ => w
      end
  end.

(** The pinch-and-rotate branch of the [touchmove] listener, on its
    element. *)
Definition pinch (t1 t2 : Point) (el : Elem) : Elem :=
  let c := vars el in
  let currentDistance := getDistance t1 t2 in
  let currentAngle := getAngle t1 t2 in
  let distanceRatio := num_div currentDistance (touchStartDistance c) in
  let s := clamp_scale (num_mul (initialScale c) distanceRatio) in
  let angleDifference := num_sub currentAngle (touchStartAngle c) in
  let r :=
    num_rem (num_add (num_add (initialRotation c) angleDifference) (Fin 360))
            (Fin 360) in
  updateTransform (with_closure (fun c => with_rotation r (with_scale s c)) el).

(** The [touchmove] listener of element [id]. *)
Definition touchmove (id : string) (touches : list Point) (w : World) : World :=
  match elems w !! id with
  | None => w
  | Some el =>
      match touches with
      | [t0] => handlePointerMove id t0 w
      | [t1; t2] => with_elem id (pinch t1 t2 el) w
      | _ => w
      end
  end.

(** The [touchend] listener of element [id]. *)
Definition touchend (id : string) (touches : list Point) (w : World) : World :=
  match elems w !! id with
  | None => w
  | Some el =>
      let w1 :=
        if (length touches <? 2)%nat
        then with_elem id (with_closure (with_touchStart (Fin 0) (Fin 0)) el) w
        else w in
      match touches with
      | [] => handlePointerUp id w1
      | _ => w1
      end
  end.

(** [element.onpointerdown]. *)
Definition onpointerdown (id : string) (p : Point) (lay : Layout) (w : World)
  : World :=
  match elems w !! id with
  | None => w
  | Some _ =>
      let w1 := with_selected id w in
      match handlePointerDown PointerEventArg id p lay w1 with
      | Some w2 => w2
      | None => w1
      end
  end.

(** Delivery of one event: element listeners run on their own element, the
    handlers of [document] run when a closure has installed them. *)
Definition step (w : World) (ev : event) : World :=
  match ev with
  | Keydown key => keydown key w
  | Touchstart target touches lay => touchstart target touches lay w
  | Touchmove target touches => touchmove target touches w
  | Touchend target touches => touchend target touches w
  | Pointerdown target p lay => onpointerdown target p lay w
  | Pointermove p =>
      match onpointermove w with
      | Some id => handlePointerMove id p w
      | None => w
      end
  | Pointerup =>
      match onpointerup w with
      | Some id => handlePointerUp id w
      | None => w
      end
  | Wheel target deltaY =>
      match onwheel w with
      | Some id => handleWheel id target deltaY w
      | None => w
      end
  | Contextmenu target =>
      match oncontextmenu w with
      | Some id => handleRightClick id target w
      | None => w
      end
  end.

Definition run (w : World) (evs : list event) : World :=
  fold_left step evs w.

End Gestures.

(** ** A host for running the model

    Square roots are exact on squares of rationals and cut to twenty
    decimals otherwise; [atan2] is exact on the axes and resolves every other
    direction to the diagonal of its quadrant. *)

Definition sample_PI : Q := 314159265358979 # 100000000000000.

Definition sample_sqrt (x : num) : num :=
  match x with
  | NaN => NaN
  | Inf true => NaN
  | Inf false => Inf false
  | Fin q =>
      if Qneg_b q then NaN
      else
        let n := Qnum q * Zpos (Qden q) in
        let r := Z.sqrt n in
        if r * r =? n then fin (Qmake r (Qden q))
        else fin (Qmake (Z.sqrt (n * 10 ^ 40)) (Qden q * 10 ^ 20))
  end.

Definition sample_atan2 (y x : num) : num :=
  match y, x with
  | Fin b, Fin a =>
      if Qzero_b b then (if Qneg_b a then fin sample_PI else Fin 0)
      else if Qzero_b a then
        (if Qneg_b b then fin (- sample_PI / 2) else fin (sample_PI / 2))
      else if Qneg_b a then
        (if Qneg_b b then fin (- 3 * sample_PI / 4) else fin (3 * sample_PI / 4))
      else
        (if Qneg_b b then fin (- sample_PI / 4) else fin (sample_PI / 4))
  | _, _ => NaN
  end.

Definition sample_host : Host :=
  {| Math_sqrt := sample_sqrt; Math_atan2 := sample_atan2;
     Math_PI := fin sample_PI |}.

Definition no_style : Style :=
  {| style_position := ""; style_top := ""; style_left := "";
     style_transform := ""; var_scale := ""; var_rotation := "" |}.

Definition no_layout : Layout :=
  {| rect_top := 0; rect_left := 0; parent_top := 0; parent_left := 0;
     parent_scrollTop := 0; parent_scrollLeft := 0 |}.

(** A page with the elements [plant1] and [animal1] and a status region. *)
Definition sample_doc : gmap string Style :=
  <["plant1" := no_style]> (<["animal1" := no_style]> ∅).

Definition sample_world : World := load sample_doc (Some idle_message).

Definition pt (x y : Z) : Point := {| clientX := inject_Z x; clientY := inject_Z y |}.

Arguments toString : simpl never.
Arguments parseFloat : simpl never.
Arguments scaleMatch : simpl never.
Arguments rotateMatch : simpl never.
Arguments fin : simpl never.
Arguments num_add : simpl never.
Arguments num_sub : simpl never.
Arguments num_mul : simpl never.
Arguments num_div : simpl never.
Arguments num_rem : simpl never.
Arguments num_or : simpl never.
Arguments num_gt : simpl never.
Arguments Math_min : simpl never.
Arguments Math_max : simpl never.
Arguments clamp_scale : simpl never.
Arguments key_transform : simpl never.
Arguments full_transform : simpl never.
Arguments drag_message : simpl never.
Arguments pressed : simpl never.
Arguments moved : simpl never.
Arguments wheeled : simpl never.
Arguments turned : simpl never.
Arguments pinch : simpl never.
Arguments gesture_started : simpl never.
Arguments reparse : simpl never.
Arguments track_position : simpl never.
Arguments key_switch : simpl never.
Arguments key_scale : simpl never.
Arguments key_rotation : simpl never.
Arguments position_top : simpl never.
Arguments position_left : simpl never.

(** ** Predicates and sample data used in the statements *)

(** A page whose [plant1] is placed at top 200px, left 300px. *)
Definition placed_doc : gmap string Style :=
  <["plant1" := {| style_position := "absolute"; style_top := "200px";
                   style_left := "300px"; style_transform := "";
                   var_scale := ""; var_rotation := "" |}]> ∅.

(** The script loaded on that page. *)
Definition placed_world : World := load placed_doc (Some idle_message).

(** A finite number within [0.3, 3.0]. *)
Definition in_scale_range (x : num) : Prop :=
  exists q, x = Fin q /\ (3 # 10 <= q)%Q /\ (q <= 3)%Q.

(** Clamping as the glossary has it: the value constrained to the inclusive
    range from [lo] to [hi]. *)
Definition clamp_to (lo hi x : Q) : Q :=
  if Qle_bool hi x then hi else if Qle_bool lo x then x else lo.




(** The element [t] is one the script made draggable. *)
Definition is_draggable (w : World) (t : string) : bool :=
  match elems w !! t with Some _ => true | None => false end.

(** The four handler slots of [document] are empty. *)
Definition slots_clear (w : World) : Prop :=
  onpointermove w = None /\ onpointerup w = None /\
  onwheel w = None /\ oncontextmenu w = None.

(** The four handler slots hold the handlers of one element. *)
Definition slots_owned (w : World) : Prop :=
  exists id, onpointermove w = Some id /\ onpointerup w = Some id /\
             onwheel w = Some id /\ oncontextmenu w = Some id.

(** Whether a drag is open after an event: a pointer-down on a draggable
    element opens one; a pointer-up, or a touch-end that leaves no touch on a
    draggable element, closes it. *)
Definition drag_after (present : string -> bool) (open : bool) (ev : event) : bool :=
  match ev with
  | Pointerdown t _ _ => if present t then true else open
  | Pointerup => false
  | Touchend t [] => if present t then false else open
  | _ => open
  end.

(** Whether a drag is open after a sequence of events, none being open at
    its start. *)
Definition drag_open (present : string -> bool) (evs : list event) : bool :=
  fold_left (drag_after present) evs false.

(** The handler slots are owned while a drag is open and empty otherwise. *)
Definition slots_match (w : World) (open : bool) : Prop :=
  if open then slots_owned w else slots_clear w.

(** Every character of [s] satisfies [P]. *)
Fixpoint all_chars (P : ascii -> bool) (s : string) : bool :=
  match s with
  | EmptyString => true
  | String c s' => P c && all_chars P s'
  end.

(** The character [c] occurs in [s]. *)
Fixpoint char_in (c : ascii) (s : string) : bool :=
  match s with
  | EmptyString => false
  | String c' s' => Ascii.eqb c c' || char_in c s'
  end.

(** The characters [toString] can produce. *)
Definition num_char (c : ascii) : bool := is_digit c || char_in c ".-+eNaInfity".

(** The value of a run of digits read on top of [acc]. *)
Fixpoint dval (s : string) (acc : Z) : Z :=
  match s with
  | EmptyString => acc
  | String c s' => dval s' (10 * acc + digit_val c)
  end.

(** The string is empty or starts with a character that is not a digit. *)
Definition starts_non_digit (s : string) : bool :=
  match s with
  | EmptyString => true
  | String c _ => negb (is_digit c)
  end.








(** A property of elements holds of every draggable element. *)
Definition world_holds (P : Elem -> Prop) (w : World) : Prop :=
  forall id el, elems w !! id = Some el -> P el.


(** The number [y] can be handed back for the number [x]: [x] rounded, the
    rounding never crossing a multiple of 1/1000 of absolute value at most
    1000 (rounding to six significant digits, or to six decimals, is of
    this kind); a value that is no number is handed back as it is. *)
Definition handed_back (x y : num) : Prop :=
  match x, y with
  | Fin p, Fin q =>
      forall n : Z, - 10 ^ 6 <= n <= 10 ^ 6 ->
        ((p <= inject_Z n / 1000)%Q -> (q <= inject_Z n / 1000)%Q) /\
        ((inject_Z n / 1000 <= p)%Q -> (inject_Z n / 1000 <= q)%Q)
  | _, _ => x = y
  end.

(** The transform [t] reads back as the scale [s] and the rotation [r]
    handed back: whatever the two patterns of the script capture in [t]
    parses to such a number. *)
Definition reads_back (s r : num) (t : string) : Prop :=
  (forall c, scaleMatch t = Some c -> handed_back s (parseFloat c)) /\
  (forall c, rotateMatch t = Some c -> handed_back r (parseFloat c)).

(** The element whose transform an event assigns, with the scale and the
    rotation it puts there: the selected element for an arrow key, the
    target of a two-touch move, the dragged element for a wheel event or a
    right-click on it. *)
Definition assigned_transform (host : Host) (w : World) (ev : event)
  : option (string * num * num) :=
  match ev with
  | Keydown key =>
      match selectedElement w with
      | Some id =>
          match elems w !! id with
          | Some el =>
              match key_switch key (key_scale (style_transform (style el)))
                      (key_rotation (style_transform (style el))) with
              | Some (s, r) => Some (id, s, r)
              | None => None
              end
          | None => None
          end
      | None => None
      end
  | Touchmove t [t1; t2] =>
      match elems w !! t with
      | Some el =>
          Some (t, scale (vars (pinch host t1 t2 el)),
                rotation (vars (pinch host t1 t2 el)))
      | None => None
      end
  | Wheel t dy =>
      match onwheel w with
      | Some id =>
          if String.eqb t id then
            match elems w !! id with
            | Some el =>
                Some (id, scale (vars (wheeled dy el)), rotation (vars (wheeled dy el)))
            | None => None
            end
          else None
      | None => None
      end
  | Contextmenu t =>
      match oncontextmenu w with
      | Some id =>
          if String.eqb t id then
            match elems w !! id with
            | Some el =>
                Some (id, scale (vars (turned el)), rotation (vars (turned el)))
            | None => None
            end
          else None
      | None => None
      end
  | _ => None
  end.

(** One event as the browser lets the next one see it: the handlers run,
    and the transform they have assigned is kept as assigned, or handed
    back with its numbers rounded, or dropped in favour of the transform
    the element had before. *)
Inductive browser_step (host : Host) (w : World) : World -> Prop :=
  | kept_as_assigned (ev : event) :
      browser_step host w (step host w ev)
  | handed_back_rounded (ev : event) (id : string) (s r : num) (el : Elem)
      (t : string) :
      assigned_transform host w ev = Some (id, s, r) ->
      elems (step host w ev) !! id = Some el ->
      reads_back s r t ->
      browser_step host w
        (with_elem id (with_style (with_transform t) el) (step host w ev))
  | assignment_dropped (ev : event) (id : string) (s r : num) (el el0 : Elem) :
      assigned_transform host w ev = Some (id, s, r) ->
      elems (step host w ev) !! id = Some el ->
      elems w !! id = Some el0 ->
      browser_step host w
        (with_elem id
           (with_style (with_transform (style_transform (style el0))) el)
           (step host w ev)).

(** Any number of events in a browser. *)
Inductive browser_run (host : Host) (w : World) : World -> Prop :=
  | browser_start : browser_run host w w
  | browser_next (w1 w2 : World) :
      browser_run host w w1 -> browser_step host w1 w2 -> browser_run host w w2.

(** A host that is exact near the positive x axis: [atan2(b, a)] is [b / a]
    when [a >= 1] and [|b| <= a / 100], and the sample host's otherwise. *)
Definition near_atan2 (y x : num) : num :=
  match y, x with
  | Fin b, Fin a =>
      if Qle_bool 1 a && Qle_bool (- a) (100 * b) && Qle_bool (100 * b) a
      then fin (b / a)
      else sample_atan2 y x
  | _, _ => NaN
  end.

Definition near_host : Host :=
  {| Math_sqrt := sample_sqrt; Math_atan2 := near_atan2;
     Math_PI := fin sample_PI |}.

(** A second finger that has slid up by 0.005 pixels, 1000 pixels to the
    right of the first. *)
Definition grazing : Point := {| clientX := 1000; clientY := -1 # 200 |}.

(** [plant1] after a two-finger twist by about 0.0003 degrees
    anticlockwise. *)
Definition twisted_world : World :=
  run near_host sample_world
    [Touchstart "plant1" [pt 0 0; pt 1000 0] no_layout;
     Touchmove "plant1" [pt 0 0; grazing]].

(** The same page once the browser has handed the transform back with its
    rotation rounded. *)
Definition handed_back_world : World :=
  match elems twisted_world !! "plant1" with
  | Some el =>
      with_elem "plant1"
        (with_style
           (with_transform "translate(-50%, -50%) scale(1) rotate(360deg)") el)
        twisted_world
  | None => twisted_world
  end.

(** And after a pointer-down on [plant1]. *)
Definition pressed_world : World :=
  step near_host handed_back_world (Pointerdown "plant1" (pt 1 1) no_layout).

(** The stored scale is in range, or is the [NaN] of the coincident pinch. *)
Definition scale_ok (x : num) : Prop := x = NaN \/ in_scale_range x.

(** Whatever scale can be read back from a transform is in range. *)
Definition transform_scale_ok (t : string) : Prop :=
  forall c, scaleMatch t = Some c -> in_scale_range (parseFloat c).

(** The scale invariant of an element. *)
Definition elem_scale_ok (el : Elem) : Prop :=
  scale_ok (scale (vars el)) /\ transform_scale_ok (style_transform (style el)).

(** An element as [makeElementDraggable] leaves it, whose inline transform
    carries no scale out of range. *)
Definition starts_unscaled (el : Elem) : Prop :=
  vars el = fresh_closure /\ transform_scale_ok (style_transform (style el)).

(** The ids the script looks for, written out. *)
Definition listed_ids : list string :=
  ["plant1"; "plant2"; "plant3"; "plant4"; "plant5"; "plant6"; "plant7";
   "plant8"; "plant9"; "plant10"; "plant11"; "plant12"; "plant13"; "plant14";
   "animal1"; "animal2"; "animal3"; "animal4"; "animal5"; "animal6"; "animal7"].

(** An element with a position: [top] and [left] are not empty. *)
Definition positioned (el : Elem) : Prop :=
  style_top (style el) <> EmptyString /\ style_left (style el) <> EmptyString.

(** The selection after an event: a pointer-down, or a touch-start with one
    or two touches, on a draggable element selects it; nothing else changes
    the selection. *)
Definition select_after (present : string -> bool) (sel : option string)
    (ev : event) : option string :=
  match ev with
  | Pointerdown t _ _ => if present t then Some t else sel
  | Touchstart t [_] _ => if present t then Some t else sel
  | Touchstart t [_; _] _ => if present t then Some t else sel
  | _ => sel
  end.

(** The element an event can change: the target of an element listener, the
    selected element for a key, the owner of the installed handler for the
    events of [document] (for wheel and context-menu, only when it is the
    target). *)
Definition affected (w : World) (ev : event) : option string :=
  match ev with
  | Keydown _ => selectedElement w
  | Touchstart t _ _ => Some t
  | Touchmove t _ => Some t
  | Touchend t _ => Some t
  | Pointerdown t _ _ => Some t
  | Pointermove _ => onpointermove w
  | Pointerup => onpointerup w
  | Wheel t _ =>
      match onwheel w with
      | Some id => if String.eqb t id then Some id else None
      | None => None
      end
  | Contextmenu t =>
      match oncontextmenu w with
      | Some id => if String.eqb t id then Some id else None
      | None => None
      end
  end.

(** The state with the status region taken out of the document. *)
Definition without_status (w : World) : World :=
  {| elems := elems w; selectedElement := selectedElement w;
     statusText := None; onpointermove := onpointermove w;
     onpointerup := onpointerup w; onwheel := onwheel w;
     oncontextmenu := oncontextmenu w |}.

(** Every element that owns an installed handler carries the attribute
    [data-dragging="true"]. *)
Definition owner_marked (w : World) : Prop :=
  forall id,
    onpointermove w = Some id \/ onpointerup w = Some id \/
    onwheel w = Some id \/ oncontextmenu w = Some id ->
    exists el, elems w !! id = Some el /\ data_dragging el = Some "true".

(** The number [z]. *)
Definition whole (z : Z) : num := Fin (inject_Z z).

(** The length [x] in pixels, as the move handler writes it. *)
Definition px (x : num) : string := toString x +:+ "px".

(** A whole number of at most [10^5] in absolute value: sums of three of
    them have at most six digits. *)
Definition small (z : Z) : Prop := - 10 ^ 5 <= z <= 10 ^ 5.

(** The element stands at the whole pixel position [(L, T)] and remembers
    the pointer at the whole position [(X, Y)]. *)
Definition stands_at (T L X Y : Z) (el : Elem) : Prop :=
  style_top (style el) = px (whole T) /\
  style_left (style el) = px (whole L) /\
  currentX (vars el) = whole X /\
  currentY (vars el) = whole Y.

Definition whole_move (m : Z * Z) : event := Pointermove (pt (fst m) (snd m)).

Definition small_pair (m : Z * Z) : Prop := small (fst m) /\ small (snd m).

(** The rotation in whole degrees after a key: the arithmetic of the
    [ArrowLeft] and [ArrowRight] cases. *)
Definition turn_after (k : Z) (key : string) : Z :=
  if String.eqb key "ArrowLeft" then (k - 15 + 360) mod 360
  else if String.eqb key "ArrowRight" then (k + 15) mod 360
  else k.

(** The page after [plant1] has been pressed and released: it is the
    selected element. *)
Definition selected_world : World :=
  run sample_host sample_world [Pointerdown "plant1" (pt 1 1) no_layout; Pointerup].

(** The page after [plant1] has been selected and turned by one
    [ArrowRight]. *)
Definition turned_world : World :=
  run sample_host selected_world [Keydown "ArrowRight"].

(** * Properties *)

(** ** The printer, the parser and the patterns on samples *)

Example toString_samples :
  map toString [fin (11 # 10); Fin 0; fin (-3 # 2); fin (1 # 10000000);
                NaN; Inf false; fin (21 # 20); fin (1 # 3); Fin 345]
  = ["1.1"; "0"; "-1.5"; "1e-7"; "NaN"; "Infinity"; "1.05";
     "0.33333333333333333333"; "345"].
Proof. vm_compute. reflexivity. Qed.

Example parseFloat_samples :
  map parseFloat ["50%"; "50px"; ""; "auto"; "12.5px"; "-3px"; "."; "1e-7px"; "  7.25.1"]
  = [Fin 50; Fin 50; NaN; NaN; fin (25 # 2); fin (-3 # 1); NaN;
     fin (1 # 10000000); fin (29 # 4)].
Proof. vm_compute. reflexivity. Qed.

Example match_samples :
  (scaleMatch "translate(-50%, -50%) scale(1.05) rotate(15deg)",
   rotateMatch "translate(-50%, -50%) scale(1.05) rotate(15deg)",
   scaleMatch "translate(-50%, -50%)",
   scaleMatch "scale(NaN) rotate(1e-7deg)",
   rotateMatch "scale(NaN) rotate(1e-7deg)")
  = (Some "1.05", Some "15", None, None, None).
Proof. vm_compute. reflexivity. Qed.

(** ** Delivery of events, one handler at a time *)

Lemma step_pointerdown (host : Host) (w : World) (id : string) (el : Elem)
    (p : Point) (lay : Layout) :
  elems w !! id = Some el ->
  step host w (Pointerdown id p lay)
  = with_handlers (Some id) (with_elem id (pressed p lay el) (with_selected id w)).
Proof.
  intros Hel. simpl. unfold onpointerdown. rewrite Hel. simpl. rewrite Hel.
  reflexivity.
Qed.

Lemma step_pointermove (host : Host) (w : World) (id : string) (el : Elem)
    (p : Point) :
  onpointermove w = Some id ->
  elems w !! id = Some el ->
  step host w (Pointermove p)
  = with_elem id (moved p el)
      (updateStatus (drag_message id (fin (clientX p)) (fin (clientY p))) w).
Proof.
  intros Hh Hel. simpl. rewrite Hh. unfold handlePointerMove. rewrite Hel.
  reflexivity.
Qed.

Lemma step_touchmove_two (host : Host) (w : World) (id : string) (el : Elem)
    (t1 t2 : Point) :
  elems w !! id = Some el ->
  step host w (Touchmove id [t1; t2]) = with_elem id (pinch host t1 t2 el) w.
Proof. intros Hel. simpl. unfold touchmove. rewrite Hel. reflexivity. Qed.

Lemma step_touchstart_two (host : Host) (w : World) (id : string) (el : Elem)
    (t1 t2 : Point) (lay : Layout) :
  elems w !! id = Some el ->
  step host w (Touchstart id [t1; t2] lay)
  = with_elem id (gesture_started host t1 t2 el) (with_selected id w).
Proof. intros Hel. simpl. unfold touchstart. rewrite Hel. reflexivity. Qed.

Lemma statusText_updateStatus (m m0 : string) (w : World) :
  statusText w = Some m0 -> statusText (updateStatus m w) = Some m.
Proof. intros H. unfold updateStatus. rewrite H. reflexivity. Qed.

(** ** Arithmetic on [num] *)

(** Subtracting a negative constant is adding its opposite. *)
Lemma num_sub_opp (x : num) (a b : Q) :
  Qeq (- a) b -> num_sub x (Fin a) = num_add x (Fin b).
Proof.
  intros H. destruct x as [|s|q]; try reflexivity.
  unfold num_sub, num_add, fin. f_equal. apply Qred_complete.
  rewrite <- H. reflexivity.
Qed.

(** ** The drag scenario (C3) *)

(** C3, as stated, fails: after a pointer-down at (100,100) and a move to
    (80,130) the element that was at left 300, top 200 is at left 280,
    top 230; left has not increased by 20 and top has not decreased by 30. *)
Lemma drag_scenario_signs_cex :
  exists el0 el2,
    elems placed_world !! "plant1" = Some el0 /\
    elems (run sample_host placed_world
             [Pointerdown "plant1" (pt 100 100) no_layout; Pointermove (pt 80 130)])
      !! "plant1" = Some el2 /\
    position_left el0 = Fin 300 /\ position_top el0 = Fin 200 /\
    style_left (style el2) = "280px" /\ style_top (style el2) = "230px" /\
    position_left el2 <> num_add (position_left el0) (Fin 20) /\
    position_top el2 <> num_sub (position_top el0) (Fin 30).
Proof.
  eexists _, _. split; [vm_compute; reflexivity|].
  split; [vm_compute; reflexivity|].
  vm_compute. repeat split; discriminate.
Qed.

(** ** The transform written by each path (C2) *)

(** The paths through [updateTransform] write the translate first. *)
Lemma updateTransform_transform (el : Elem) :
  style_transform (style (updateTransform el))
  = full_transform (scale (vars el)) (rotation (vars el))
  /\ vars (updateTransform el) = vars el.
Proof. split; reflexivity. Qed.

Lemma full_transform_translate_first (s r : num) :
  String.prefix "translate(-50%, -50%) " (full_transform s r) = true.
Proof. reflexivity. Qed.

Lemma key_transform_no_translate (s r : num) :
  String.prefix "translate" (key_transform s r) = false.
Proof. reflexivity. Qed.

(** C2 on the key handler: with [plant1] selected, ArrowUp writes
    [scale(1.1) rotate(0deg)]; the translate that [updateTransform] and the
    initial centring put first is gone. *)
Theorem keydown_drops_translate :
  exists el0 el,
    elems (run sample_host sample_world
             [Pointerdown "plant1" (pt 100 100) no_layout]) !! "plant1" = Some el0 /\
    style_transform (style el0) = "translate(-50%, -50%)" /\
    elems (run sample_host sample_world
             [Pointerdown "plant1" (pt 100 100) no_layout; Keydown "ArrowUp"])
      !! "plant1" = Some el /\
    style_transform (style el) = "scale(1.1) rotate(0deg)" /\
    String.prefix "translate(-50%, -50%)" (style_transform (style el)) = false.
Proof.
  eexists _, _. split; [vm_compute; reflexivity|].
  split; [reflexivity|]. split; [vm_compute; reflexivity|].
  split; reflexivity.
Qed.

(** ** A drag with no net movement (C7) *)

(** C7 on an element as the script itself centres it ([top] and [left] at
    50%): a press at (100,100), a move to (110,100), a move back to (100,100)
    and a release leave it at 50px, 50px. *)
Theorem drag_round_trip_percent :
  exists el0 el,
    elems sample_world !! "plant1" = Some el0 /\
    style_top (style el0) = "50%" /\ style_left (style el0) = "50%" /\
    elems (run sample_host sample_world
             [Pointerdown "plant1" (pt 100 100) no_layout; Pointermove (pt 110 100);
              Pointermove (pt 100 100); Pointerup]) !! "plant1" = Some el /\
    style_top (style el) = "50px" /\ style_left (style el) = "50px" /\
    style_top (style el) <> style_top (style el0) /\
    style_left (style el) <> style_left (style el0).
Proof.
  eexists _, _. split; [vm_compute; reflexivity|].
  split; [reflexivity|]. split; [reflexivity|].
  split; [vm_compute; reflexivity|].
  vm_compute. repeat split; discriminate.
Qed.

(** ** The scale range (C1) and a zero start distance (C10) *)

Lemma NaN_not_in_scale_range : ~ in_scale_range NaN.
Proof. intros [q [H _]]. discriminate H. Qed.

(** C1 on the pinch handler: a two-touch move whose touch points coincide,
    received while the start distance is still 0, stores [NaN] as the scale:
    the ratio is [0 / 0], and [Math.min] and [Math.max] hand [NaN] on. *)
Theorem pinch_scale_escapes_range :
  exists el0 el,
    elems sample_world !! "plant1" = Some el0 /\
    scale (vars el0) = Fin 1 /\
    elems (run sample_host sample_world [Touchmove "plant1" [pt 5 5; pt 5 5]])
      !! "plant1" = Some el /\
    scale (vars el) = NaN /\
    ~ in_scale_range (scale (vars el)) /\
    style_transform (style el) = "translate(-50%, -50%) scale(NaN) rotate(0deg)".
Proof.
  eexists _, _. split; [vm_compute; reflexivity|].
  split; [reflexivity|]. split; [vm_compute; reflexivity|].
  split; [reflexivity|]. split; [apply NaN_not_in_scale_range|].
  vm_compute. reflexivity.
Qed.

Lemma Qzero_b_true (q : Q) : (q == 0)%Q -> Qzero_b q = true.
Proof.
  unfold Qeq, Qzero_b. simpl. intros H. apply Z.eqb_eq. lia.
Qed.

Lemma Qzero_b_false (q : Q) : ~ (q == 0)%Q -> Qzero_b q = false.
Proof.
  unfold Qeq, Qzero_b. simpl. intros H. apply Z.eqb_neq. lia.
Qed.

Lemma Qneg_b_false (q : Q) : (0 <= q)%Q -> Qneg_b q = false.
Proof.
  unfold Qle, Qneg_b. simpl. intros H. apply Z.ltb_ge. lia.
Qed.

Lemma pinch_scale (host : Host) (t1 t2 : Point) (el : Elem) :
  scale (vars (pinch host t1 t2 el))
  = clamp_scale (num_mul (initialScale (vars el))
                   (num_div (getDistance host t1 t2) (touchStartDistance (vars el)))).
Proof. reflexivity. Qed.

Lemma pinch_rotation (host : Host) (t1 t2 : Point) (el : Elem) :
  rotation (vars (pinch host t1 t2 el))
  = num_rem
      (num_add (num_add (initialRotation (vars el))
                  (num_sub (getAngle host t1 t2) (touchStartAngle (vars el))))
         (Fin 360)) (Fin 360).
Proof. reflexivity. Qed.

(** C10, as stated, fails: with the start distance at 0 and the two touch
    points 50 apart, the ratio is [Infinity] and the stored scale is 3. *)
Lemma zero_start_distance_cex :
  exists el0 el,
    elems sample_world !! "plant1" = Some el0 /\
    touchStartDistance (vars el0) = Fin 0 /\
    getDistance sample_host (pt 0 0) (pt 30 40) = Fin 50 /\
    elems (run sample_host sample_world [Touchmove "plant1" [pt 0 0; pt 30 40]])
      !! "plant1" = Some el /\
    scale (vars el) = Fin 3 /\ scale (vars el) <> NaN.
Proof.
  eexists _, _. split; [vm_compute; reflexivity|].
  split; [reflexivity|]. split; [vm_compute; reflexivity|].
  split; [vm_compute; reflexivity|].
  split; [reflexivity | discriminate].
Qed.

(** C10, amended: when a two-touch move is processed while the start
    distance is 0 and the baseline scale is positive, the unguarded division
    gives [Infinity] for a positive current distance, and the stored scale is
    3; it gives [NaN] when the current distance is 0 too, and the stored
    scale is then [NaN]. *)
Theorem pinch_zero_start_distance (host : Host) (w : World) (id : string)
    (el : Elem) (t1 t2 : Point) (b d : Q) :
  elems w !! id = Some el ->
  touchStartDistance (vars el) = Fin 0 ->
  initialScale (vars el) = Fin b -> (0 < b)%Q ->
  getDistance host t1 t2 = Fin d ->
  exists el',
    elems (step host w (Touchmove id [t1; t2])) !! id = Some el' /\
    ((0 < d)%Q ->
       num_div (getDistance host t1 t2) (touchStartDistance (vars el)) = Inf false
       /\ scale (vars el') = Fin 3) /\
    ((d == 0)%Q ->
       num_div (getDistance host t1 t2) (touchStartDistance (vars el)) = NaN
       /\ scale (vars el') = NaN).
Proof.
  intros Hel H0 Hb Hpos Hd.
  rewrite (step_touchmove_two host w id el) by exact Hel.
  exists (pinch host t1 t2 el). split; [apply lookup_insert_eq|].
  rewrite pinch_scale, H0, Hb, Hd. split.
  - intros Hdpos.
    assert (Hz : Qzero_b d = false) by (apply Qzero_b_false; lra).
    assert (Hn : Qneg_b d = false) by (apply Qneg_b_false; lra).
    assert (Hdiv : num_div (Fin d) (Fin 0) = Inf false).
    { unfold num_div. change (Qzero_b 0) with true. cbv iota. rewrite Hz, Hn.
      reflexivity. }
    rewrite Hdiv. split; [reflexivity|].
    unfold num_mul. rewrite (Qzero_b_false b) by lra.
    rewrite (Qneg_b_false b) by lra. reflexivity.
  - intros Hdz.
    assert (Hdiv : num_div (Fin d) (Fin 0) = NaN).
    { unfold num_div. change (Qzero_b 0) with true. cbv iota.
      rewrite (Qzero_b_true d Hdz). reflexivity. }
    rewrite Hdiv. split; reflexivity.
Qed.

Lemma pinch_zero_start_distance_witness :
  exists el',
    elems (step sample_host sample_world (Touchmove "plant1" [pt 0 0; pt 30 40]))
      !! "plant1" = Some el' /\
    ((0 < 50)%Q ->
       num_div (getDistance sample_host (pt 0 0) (pt 30 40))
         (touchStartDistance (vars (init_elem no_style))) = Inf false
       /\ scale (vars el') = Fin 3) /\
    ((50 == 0)%Q ->
       num_div (getDistance sample_host (pt 0 0) (pt 30 40))
         (touchStartDistance (vars (init_elem no_style))) = NaN
       /\ scale (vars el') = NaN).
Proof.
  apply (pinch_zero_start_distance sample_host sample_world "plant1"
           (init_elem no_style) (pt 0 0) (pt 30 40) 1 50).
  - vm_compute. reflexivity.
  - reflexivity.
  - reflexivity.
  - reflexivity.
  - vm_compute. reflexivity.
Defined.

(** A [touchend] that leaves one touch resets the start distance and angle
    and keeps the handlers of the drag installed. *)
Lemma touchend_one_left (host : Host) (w : World) (id : string) (el : Elem)
    (t : Point) :
  elems w !! id = Some el ->
  exists el',
    elems (step host w (Touchend id [t])) !! id = Some el' /\
    touchStartDistance (vars el') = Fin 0 /\
    touchStartAngle (vars el') = Fin 0 /\
    onwheel (step host w (Touchend id [t])) = onwheel w.
Proof.
  intros Hel. simpl. unfold touchend. rewrite Hel. simpl.
  eexists. split; [apply lookup_insert_eq|]. repeat split.
Qed.

(** ** The pinch formula (C5) *)

Lemma clamp_to_range (lo hi x : Q) :
  (lo <= hi)%Q -> (lo <= clamp_to lo hi x)%Q /\ (clamp_to lo hi x <= hi)%Q.
Proof.
  intros Hlh. unfold clamp_to.
  destruct (Qle_bool hi x) eqn:E1.
  - split; lra.
  - destruct (Qle_bool lo x) eqn:E2.
    + apply Qle_bool_iff in E2. split; [exact E2|].
      destruct (Qlt_le_dec x hi) as [Hlt|Hge]; [lra|].
      apply Qle_bool_iff in Hge. congruence.
    + split; lra.
Qed.

Lemma clamp_to_id (lo hi x : Q) :
  (lo <= x)%Q -> (x < hi)%Q -> clamp_to lo hi x = x.
Proof.
  intros H1 H2. unfold clamp_to.
  destruct (Qle_bool hi x) eqn:E1.
  - apply Qle_bool_iff in E1. lra.
  - apply Qle_bool_iff in H1. rewrite H1. reflexivity.
Qed.

(** [Math.max(0.3, Math.min(3, s))] on a finite [s] is the clamp. *)
Lemma clamp_scale_fin (q : Q) :
  clamp_scale (Fin q) = Fin (clamp_to (3 # 10) 3 q).
Proof.
  unfold clamp_scale, clamp_to, Math_min, Math_max, num_le_b.
  destruct (Qle_bool 3 q) eqn:E1.
  - reflexivity.
  - destruct (Qle_bool (3 # 10) q) eqn:E2; reflexivity.
Qed.

Lemma clamp_scale_NaN : clamp_scale NaN = NaN.
Proof. reflexivity. Qed.



Lemma run_cons (host : Host) (w : World) (ev : event) (evs : list event) :
  run host w (ev :: evs) = run host (step host w ev) evs.
Proof. reflexivity. Qed.


Lemma run_nil (host : Host) (w : World) : run host w [] = w.
Proof. reflexivity. Qed.





(** The scenario run on the sample page. *)
Example pinch_scenario_run :
  exists el,
    elems (run sample_host sample_world
             [Touchstart "plant1" [pt 0 0; pt 60 80] no_layout;
              Touchmove "plant1" [pt 0 0; pt 30 40]]) !! "plant1" = Some el /\
    touchStartDistance (vars el) = Fin 100 /\ scale (vars el) = Fin (1 # 2).
Proof. eexists. split; [vm_compute; reflexivity|]. split; reflexivity. Qed.

(** ** The key handler (C6) and the re-parse (C8) *)

(** The operations of the key handler on finite values. *)
Lemma Math_min_fin (a b : Q) :
  Math_min (Fin a) (Fin b) = if Qle_bool a b then Fin a else Fin b.
Proof. reflexivity. Qed.

Lemma Math_max_fin (a b : Q) :
  Math_max (Fin a) (Fin b) = if Qle_bool a b then Fin b else Fin a.
Proof. reflexivity. Qed.




(** ** Wheel and context-menu outside a drag (C9) *)

Lemma is_draggable_with_elem (w : World) (id t : string) (el el0 : Elem) :
  elems w !! id = Some el0 ->
  is_draggable (with_elem id el w) t = is_draggable w t.
Proof.
  intros H. unfold is_draggable. cbn [elems with_elem].
  destruct (decide (id = t)) as [->|Hne].
  - rewrite lookup_insert_eq, H. reflexivity.
  - rewrite lookup_insert_ne by exact Hne. reflexivity.
Qed.

Lemma slots_match_same (w w' : World) (open : bool) :
  onpointermove w' = onpointermove w -> onpointerup w' = onpointerup w ->
  onwheel w' = onwheel w -> oncontextmenu w' = oncontextmenu w ->
  slots_match w open -> slots_match w' open.
Proof.
  intros H1 H2 H3 H4. unfold slots_match, slots_owned, slots_clear.
  rewrite H1, H2, H3, H4. trivial.
Qed.

Lemma slots_match_handlePointerUp (id : string) (w : World) :
  slots_match (handlePointerUp id w) false.
Proof. repeat split. Qed.

Lemma is_draggable_updateStatus (m : string) (w : World) (t : string) :
  is_draggable (updateStatus m w) t = is_draggable w t.
Proof. unfold is_draggable, updateStatus. destruct (statusText w); reflexivity. Qed.

Lemma elems_updateStatus (m : string) (w : World) :
  elems (updateStatus m w) = elems w.
Proof. unfold updateStatus. destruct (statusText w); reflexivity. Qed.

Lemma is_draggable_handlePointerUp (id : string) (w : World) (t : string) :
  is_draggable (handlePointerUp id w) t = is_draggable w t.
Proof.
  unfold handlePointerUp.
  change (is_draggable (with_handlers None ?x) t) with (is_draggable x t).
  rewrite is_draggable_updateStatus.
  destruct (elems w !! id) eqn:E; [|reflexivity].
  apply (is_draggable_with_elem w id t _ e E).
Qed.

Lemma is_draggable_handlePointerMove (id : string) (p : Point) (w : World)
    (t : string) :
  is_draggable (handlePointerMove id p w) t = is_draggable w t.
Proof.
  unfold handlePointerMove. destruct (elems w !! id) eqn:E; [|reflexivity].
  rewrite (is_draggable_with_elem _ id t _ e).
  - apply is_draggable_updateStatus.
  - rewrite elems_updateStatus. exact E.
Qed.

Lemma slots_handlePointerMove (id : string) (p : Point) (w : World) :
  let w' := handlePointerMove id p w in
  onpointermove w' = onpointermove w /\ onpointerup w' = onpointerup w /\
  onwheel w' = onwheel w /\ oncontextmenu w' = oncontextmenu w.
Proof.
  unfold handlePointerMove, updateStatus.
  destruct (elems w !! id); destruct (statusText w); repeat split.
Qed.

(** One event keeps the set of draggable elements, and keeps the handler
    slots in step with [drag_after]. *)
Lemma step_slots (host : Host) (w0 w : World) (open : bool) (ev : event) :
  (forall t, is_draggable w t = is_draggable w0 t) ->
  slots_match w open ->
  (forall t, is_draggable (step host w ev) t = is_draggable w0 t) /\
  slots_match (step host w ev) (drag_after (is_draggable w0) open ev).
Proof.
  intros Hdom Hm.
  destruct ev as [key|t touches lay|t touches|t touches|t p lay|p| |t dy|t];
    cbn [step drag_after].
  - (* keydown *)
    unfold keydown. destruct (selectedElement w) as [id|]; [|split; assumption].
    destruct (elems w !! id) as [el|] eqn:E; [|split; assumption].
    destruct (key_switch key _ _) as [[s r]|]; [|split; assumption].
    split.
    + intros t. rewrite (is_draggable_with_elem w id t _ el E). apply Hdom.
    + revert Hm. apply slots_match_same; reflexivity.
  - (* touchstart *)
    unfold touchstart. destruct (elems w !! t) as [el|] eqn:E; [|split; assumption].
    destruct touches as [|t1 [|t2 [|t3 rest]]]; try (split; assumption).
    split.
    + intros u.
      rewrite (is_draggable_with_elem (with_selected t w) t u _ el E). apply Hdom.
    + revert Hm. apply slots_match_same; reflexivity.
  - (* touchmove *)
    unfold touchmove. destruct (elems w !! t) as [el|] eqn:E; [|split; assumption].
    destruct touches as [|t1 [|t2 [|t3 rest]]]; try (split; assumption).
    + split.
      * intros u. rewrite is_draggable_handlePointerMove. apply Hdom.
      * revert Hm. apply slots_match_same; apply slots_handlePointerMove.
    + split.
      * intros u. rewrite (is_draggable_with_elem w t u _ el E). apply Hdom.
      * revert Hm. apply slots_match_same; reflexivity.
  - (* touchend *)
    unfold touchend. destruct (elems w !! t) as [el|] eqn:E.
    + assert (Hp : is_draggable w0 t = true).
      { rewrite <- Hdom. unfold is_draggable. rewrite E. reflexivity. }
      destruct touches as [|t1 [|t2 rest]]; cbn [length Nat.ltb Nat.leb].
      * rewrite Hp. split; [|apply slots_match_handlePointerUp].
        intros u. rewrite is_draggable_handlePointerUp.
        rewrite (is_draggable_with_elem w t u _ el E). apply Hdom.
      * split.
        -- intros u. rewrite (is_draggable_with_elem w t u _ el E). apply Hdom.
        -- revert Hm. apply slots_match_same; reflexivity.
      * split; assumption.
    + assert (Hp : is_draggable w0 t = false).
      { rewrite <- Hdom. unfold is_draggable. rewrite E. reflexivity. }
      split; [exact Hdom|]. destruct touches; [rewrite Hp|]; exact Hm.
  - (* pointerdown *)
    unfold onpointerdown. destruct (elems w !! t) as [el|] eqn:E.
    + assert (Hp : is_draggable w0 t = true).
      { rewrite <- Hdom. unfold is_draggable. rewrite E. reflexivity. }
      rewrite Hp. cbn [handlePointerDown elems with_selected]. rewrite E. split.
      * intros u.
        change (is_draggable (with_handlers ?h ?x) u) with (is_draggable x u).
        rewrite (is_draggable_with_elem (with_selected t w) t u _ el E). apply Hdom.
      * exists t. repeat split.
    + assert (Hp : is_draggable w0 t = false).
      { rewrite <- Hdom. unfold is_draggable. rewrite E. reflexivity. }
      rewrite Hp. split; assumption.
  - (* pointermove *)
    destruct (onpointermove w) as [id|]; [|split; assumption]. split.
    + intros u. rewrite is_draggable_handlePointerMove. apply Hdom.
    + revert Hm. apply slots_match_same; apply slots_handlePointerMove.
  - (* pointerup *)
    destruct (onpointerup w) as [id|] eqn:E.
    + split; [|apply slots_match_handlePointerUp].
      intros u. rewrite is_draggable_handlePointerUp. apply Hdom.
    + split; [exact Hdom|]. destruct open; [|exact Hm].
      destruct Hm as [id [_ [H _]]]. congruence.
  - (* wheel *)
    destruct (onwheel w) as [id|]; [|split; assumption].
    unfold handleWheel. destruct (String.eqb t id); [|split; assumption].
    destruct (elems w !! id) as [el|] eqn:E; [|split; assumption]. split.
    + intros u. rewrite (is_draggable_with_elem w id u _ el E). apply Hdom.
    + revert Hm. apply slots_match_same; reflexivity.
  - (* contextmenu *)
    destruct (oncontextmenu w) as [id|]; [|split; assumption].
    unfold handleRightClick. destruct (String.eqb t id); [|split; assumption].
    destruct (elems w !! id) as [el|] eqn:E; [|split; assumption]. split.
    + intros u. rewrite (is_draggable_with_elem w id u _ el E). apply Hdom.
    + revert Hm. apply slots_match_same; reflexivity.
Qed.

Lemma run_slots (host : Host) (w0 : World) (evs : list event) :
  forall (w : World) (open : bool),
    (forall t, is_draggable w t = is_draggable w0 t) ->
    slots_match w open ->
    slots_match (run host w evs) (fold_left (drag_after (is_draggable w0)) evs open).
Proof.
  induction evs as [|ev evs IH]; intros w open Hdom Hm.
  - exact Hm.
  - rewrite run_cons. cbn [fold_left].
    destruct (step_slots host w0 w open ev Hdom Hm) as [Hdom' Hm'].
    apply IH; assumption.
Qed.

(** C9: starting with no handler installed on the document, after any
    events the wheel and context-menu handlers are installed exactly while a
    drag is open, that is from a pointer-down on a draggable element to the
    next pointer-up; outside such an interval a wheel or context-menu event
    leaves the whole state unchanged. *)
Theorem wheel_contextmenu_need_drag (host : Host) (w : World) (evs : list event) :
  slots_clear w ->
  let w' := run host w evs in
  (drag_open (is_draggable w) evs = true -> slots_owned w') /\
  (drag_open (is_draggable w) evs = false ->
   slots_clear w' /\
   forall t dy,
     step host w' (Wheel t dy) = w' /\ step host w' (Contextmenu t) = w').
Proof.
  intros Hc w'.
  pose proof (run_slots host w evs w false (fun t => eq_refl) Hc) as Hm.
  fold (drag_open (is_draggable w) evs) in Hm. fold w' in Hm.
  split; intros Ho; rewrite Ho in Hm; [exact Hm|].
  split; [exact Hm|].
  destruct Hm as [_ [_ [Hw Hx]]].
  intros t dy. cbn [step]. rewrite Hw, Hx. split; reflexivity.
Qed.

Lemma wheel_contextmenu_need_drag_witness :
  let w' :=
    run sample_host sample_world
      [Pointerdown "plant1" (pt 100 100) no_layout; Wheel "plant1" (-1); Pointerup] in
  slots_clear w' /\
  forall t dy,
    step sample_host w' (Wheel t dy) = w' /\
    step sample_host w' (Contextmenu t) = w'.
Proof.
  refine (proj2 (wheel_contextmenu_need_drag sample_host sample_world
            [Pointerdown "plant1" (pt 100 100) no_layout; Wheel "plant1" (-1);
             Pointerup] _) _).
  - repeat split.
  - vm_compute. reflexivity.
Defined.

Example wheel_inside_and_outside_drag :
  exists el1 el2,
    elems (run sample_host sample_world
             [Pointerdown "plant1" (pt 100 100) no_layout; Wheel "plant1" (-1)])
      !! "plant1" = Some el1 /\ scale (vars el1) = Fin (21 # 20) /\
    elems (run sample_host sample_world
             [Pointerdown "plant1" (pt 100 100) no_layout; Pointerup;
              Wheel "plant1" (-1); Contextmenu "plant1"])
      !! "plant1" = Some el2 /\ scale (vars el2) = Fin 1 /\ rotation (vars el2) = Fin 0.
Proof.
  eexists _, _. split; [vm_compute; reflexivity|]. split; [reflexivity|].
  split; [vm_compute; reflexivity|]. split; reflexivity.
Qed.

(** ** The characters of a printed number *)

Lemma append_cons (c : ascii) (a b : string) :
  String c a +:+ b = String c (a +:+ b).
Proof. reflexivity. Qed.

Lemma all_chars_app (P : ascii -> bool) (a b : string) :
  all_chars P (a +:+ b) = all_chars P a && all_chars P b.
Proof.
  induction a as [|c a IH]; [reflexivity|].
  rewrite append_cons. cbn [all_chars]. rewrite IH. apply andb_assoc.
Qed.

Lemma all_chars_impl (P Q : ascii -> bool) (s : string) :
  (forall c, P c = true -> Q c = true) ->
  all_chars P s = true -> all_chars Q s = true.
Proof.
  intros HPQ. induction s as [|c s IH]; [reflexivity|].
  cbn [all_chars]. intros H. apply andb_true_iff in H as [Hc Hs].
  rewrite (HPQ c Hc), (IH Hs). reflexivity.
Qed.

Lemma append_empty_r (s : string) : s +:+ "" = s.
Proof.
  induction s as [|c s IH]; [reflexivity|]. rewrite append_cons, IH. reflexivity.
Qed.

Lemma append_assoc (a b c : string) : (a +:+ b) +:+ c = a +:+ (b +:+ c).
Proof.
  induction a as [|x a IH]; [reflexivity|]. rewrite !append_cons, IH. reflexivity.
Qed.

Lemma is_digit_num_char (c : ascii) : is_digit c = true -> num_char c = true.
Proof. intros H. unfold num_char. rewrite H. reflexivity. Qed.

Lemma digit_cases (d : Z) :
  0 <= d < 10 ->
  d = 0 \/ d = 1 \/ d = 2 \/ d = 3 \/ d = 4 \/ d = 5 \/ d = 6 \/ d = 7 \/ d = 8 \/ d = 9.
Proof. lia. Qed.

Lemma digit_char_is_digit (d : Z) : 0 <= d < 10 -> is_digit (digit_char d) = true.
Proof.
  intros H. destruct (digit_cases d H) as [->|[->|[->|[->|[->|[->|[->|[->|[->| ->]]]]]]]]];
    reflexivity.
Qed.

Lemma digit_val_digit_char (d : Z) : 0 <= d < 10 -> digit_val (digit_char d) = d.
Proof.
  intros H. destruct (digit_cases d H) as [->|[->|[->|[->|[->|[->|[->|[->|[->| ->]]]]]]]]];
    reflexivity.
Qed.

Lemma dval_shift (s : string) :
  forall a, dval s a = a * 10 ^ Z.of_nat (String.length s) + dval s 0.
Proof.
  induction s as [|c s IH]; intros a.
  - cbn. lia.
  - cbn [dval String.length]. rewrite (IH (10 * a + digit_val c)), (IH (10 * 0 + digit_val c)).
    rewrite Nat2Z.inj_succ, Z.pow_succ_r by lia. lia.
Qed.

Lemma dval_app (a b : string) (acc : Z) : dval (a +:+ b) acc = dval b (dval a acc).
Proof.
  revert acc. induction a as [|c a IH]; intros acc; [reflexivity|].
  rewrite append_cons. cbn [dval]. apply IH.
Qed.

Lemma read_digits_spec (D rest : string) :
  all_chars is_digit D = true ->
  starts_non_digit rest = true ->
  forall acc cnt,
    read_digits (D +:+ rest) acc cnt = (dval D acc, (cnt + String.length D)%nat, rest).
Proof.
  intros HD Hrest. induction D as [|c D IH]; intros acc cnt.
  - change (EmptyString +:+ rest) with rest.
    cbn [dval String.length]. rewrite Nat.add_0_r.
    destruct rest as [|c rest]; [reflexivity|].
    cbn [read_digits]. cbn [starts_non_digit] in Hrest.
    apply negb_true_iff in Hrest. rewrite Hrest. reflexivity.
  - cbn [all_chars] in HD. apply andb_true_iff in HD as [Hc HD].
    rewrite append_cons. cbn [read_digits dval String.length]. rewrite Hc.
    rewrite (IH HD). f_equal. f_equal. lia.
Qed.

(** *** Integer digits *)

Lemma int_digits_chars (fuel : nat) :
  forall n acc,
    all_chars num_char acc = true ->
    all_chars num_char (int_digits fuel n acc) = true.
Proof.
  induction fuel as [|f IH]; intros n acc Hacc; [exact Hacc|].
  cbn [int_digits].
  assert (Hd : all_chars num_char (String (digit_char (n mod 10)) acc) = true).
  { cbn [all_chars]. rewrite Hacc, is_digit_num_char; [reflexivity|].
    apply digit_char_is_digit. apply Z.mod_pos_bound. lia. }
  destruct (n <? 10); [exact Hd|]. apply IH. exact Hd.
Qed.

Lemma int_string_chars (n : Z) : all_chars num_char (int_string n) = true.
Proof. apply int_digits_chars. reflexivity. Qed.

Lemma int_digits_spec (f : nat) :
  forall n acc,
    0 <= n < 2 ^ Z.of_nat (S f) ->
    exists D,
      int_digits (S f) n acc = D +:+ acc /\
      all_chars is_digit D = true /\
      D <> EmptyString /\
      dval D 0 = n.
Proof.
  induction f as [|f IH]; intros n acc Hn.
  - cbn [int_digits]. change (2 ^ Z.of_nat 1) with 2 in Hn.
    replace (n <? 10) with true by (symmetry; apply Z.ltb_lt; lia).
    exists (String (digit_char (n mod 10)) EmptyString).
    rewrite Z.mod_small by lia.
    split; [reflexivity|]. split; [|split; [discriminate|]].
    + cbn [all_chars]. rewrite digit_char_is_digit by lia. reflexivity.
    + cbn [dval]. rewrite digit_val_digit_char by lia. lia.
  - cbn [int_digits]. destruct (n <? 10) eqn:E.
    + apply Z.ltb_lt in E.
      exists (String (digit_char (n mod 10)) EmptyString).
      rewrite Z.mod_small by lia.
      split; [reflexivity|]. split; [|split; [discriminate|]].
      * cbn [all_chars]. rewrite digit_char_is_digit by lia. reflexivity.
      * cbn [dval]. rewrite digit_val_digit_char by lia. lia.
    + apply Z.ltb_ge in E.
      assert (Hq : 0 <= n / 10 < 2 ^ Z.of_nat (S f)).
      { split; [apply Z.div_pos; lia|].
        rewrite (Nat2Z.inj_succ (S f)), Z.pow_succ_r in Hn by lia.
        apply Z.div_lt_upper_bound; lia. }
      destruct (IH (n / 10) (String (digit_char (n mod 10)) acc) Hq)
        as [D [HD [Hall [Hne Hval]]]].
      exists (D +:+ String (digit_char (n mod 10)) EmptyString).
      split; [|split; [|split]].
      * fold int_digits in HD. cbn [int_digits] in HD. rewrite HD.
        rewrite append_assoc. reflexivity.
      * rewrite all_chars_app, Hall. cbn [all_chars].
        rewrite digit_char_is_digit by (apply Z.mod_pos_bound; lia). reflexivity.
      * destruct D; [contradiction | discriminate].
      * rewrite dval_app, Hval. cbn [dval].
        rewrite digit_val_digit_char by (apply Z.mod_pos_bound; lia).
        pose proof (Z.div_mod n 10). lia.
Qed.

Lemma int_string_spec (n : Z) :
  0 <= n ->
  all_chars is_digit (int_string n) = true /\
  int_string n <> EmptyString /\
  dval (int_string n) 0 = n.
Proof.
  intros Hn. unfold int_string.
  assert (Hb : 0 <= n < 2 ^ Z.of_nat (S (Z.to_nat (Z.log2 n)))).
  { split; [exact Hn|].
    rewrite Nat2Z.inj_succ, Z2Nat.id by apply Z.log2_nonneg.
    destruct (Z.eq_dec n 0) as [->|Hne]; [reflexivity|].
    apply Z.log2_spec. lia. }
  destruct (int_digits_spec (Z.to_nat (Z.log2 n)) n EmptyString Hb)
    as [D [HD [Hall [Hne Hval]]]].
  rewrite HD, append_empty_r. auto.
Qed.

(** *** Fraction digits *)

Lemma frac_digits_spec (d : Z) (fuel : nat) :
  forall r,
    0 <= r < d ->
    let s := frac_digits fuel r d in
    all_chars is_digit s = true /\
    0 <= dval s 0 /\
    dval s 0 * d <= r * 10 ^ Z.of_nat (String.length s) /\
    r * 10 ^ Z.of_nat (String.length s) < (dval s 0 + 1) * d.
Proof.
  induction fuel as [|f IH]; intros r Hr; cbn zeta.
  - cbn. split; [reflexivity|]. lia.
  - cbn [frac_digits]. destruct (r =? 0) eqn:E.
    + cbn. split; [reflexivity|]. lia.
    + apply Z.eqb_neq in E.
      assert (Hd : 0 < d) by lia.
      assert (Hdig : 0 <= 10 * r / d < 10).
      { split; [apply Z.div_pos; lia|]. apply Z.div_lt_upper_bound; lia. }
      assert (Hrem : 0 <= (10 * r) mod d < d) by (apply Z.mod_pos_bound; lia).
      destruct (IH _ Hrem) as [Hall [Hnn [Hle Hlt]]].
      set (s := frac_digits f ((10 * r) mod d) d) in *.
      cbn [all_chars dval String.length].
      rewrite digit_char_is_digit, digit_val_digit_char by exact Hdig.
      rewrite (dval_shift s). rewrite Nat2Z.inj_succ, Z.pow_succ_r by lia.
      split; [exact Hall|].
      assert (Hp : 0 <= 10 ^ Z.of_nat (String.length s)) by (apply Z.pow_nonneg; lia).
      pose proof (Z.div_mod (10 * r) d ltac:(lia)) as Hdm.
      split; [nia|]. split; nia.
Qed.

(** A fraction that is not zero prints at least one digit. *)
Lemma frac_digits_length (d r : Z) (fuel : nat) :
  r <> 0 -> (1 <= String.length (frac_digits (S fuel) r d))%nat.
Proof.
  intros Hr. cbn [frac_digits]. apply Z.eqb_neq in Hr. rewrite Hr.
  cbn [String.length]. lia.
Qed.

(** *** The printed form *)

Lemma plain_string_chars (q : Q) : all_chars num_char (plain_string q) = true.
Proof.
  unfold plain_string. rewrite all_chars_app, int_string_chars.
  destruct (Qnum q mod Z.pos (Qden q) =? 0); [reflexivity|].
  rewrite append_cons. cbn [all_chars andb].
  change (EmptyString +:+ ?x) with x.
  change (num_char ".") with true. cbn [andb].
  apply (all_chars_impl is_digit); [apply is_digit_num_char|].
  apply frac_digits_spec. apply Z.mod_pos_bound. reflexivity.
Qed.

Lemma pos_string_chars (q : Q) : all_chars num_char (pos_string q) = true.
Proof.
  unfold pos_string.
  destruct (Qle_bool (Qpow10 21) q); [|destruct (Qle_bool (1 # 1000000) q)].
  - rewrite !all_chars_app, plain_string_chars, int_string_chars. reflexivity.
  - apply plain_string_chars.
  - rewrite !all_chars_app, plain_string_chars, int_string_chars. reflexivity.
Qed.

Lemma toString_chars (x : num) : all_chars num_char (toString x) = true.
Proof.
  destruct x as [|[|]|q]; try reflexivity.
  unfold toString. destruct (Qzero_b q); [reflexivity|].
  destruct (Qneg_b q); [|apply pos_string_chars].
  rewrite all_chars_app, pos_string_chars. reflexivity.
Qed.

Lemma int_digits_nonempty (fuel : nat) :
  forall n acc, acc <> EmptyString -> int_digits fuel n acc <> EmptyString.
Proof.
  induction fuel as [|f IH]; intros n acc Hacc; [exact Hacc|].
  cbn [int_digits]. destruct (n <? 10); [discriminate|]. apply IH. discriminate.
Qed.

Lemma int_string_nonempty (n : Z) : int_string n <> EmptyString.
Proof.
  unfold int_string. cbn [int_digits]. destruct (n <? 10); [discriminate|].
  apply int_digits_nonempty. discriminate.
Qed.

Lemma append_nonempty (a b : string) : a <> EmptyString -> a +:+ b <> EmptyString.
Proof. destruct a; [contradiction | discriminate]. Qed.

Lemma toString_nonempty (x : num) : toString x <> EmptyString.
Proof.
  destruct x as [|[|]|q]; try discriminate.
  unfold toString. destruct (Qzero_b q); [discriminate|].
  destruct (Qneg_b q); [discriminate|].
  unfold pos_string, plain_string.
  destruct (Qle_bool (Qpow10 21) q); [|destruct (Qle_bool (1 # 1000000) q)];
    repeat apply append_nonempty; apply int_string_nonempty.
Qed.

(** *** [parseFloat] on positional notation *)

Lemma digit_not_space (c : ascii) : is_digit c = true -> is_space c = false.
Proof.
  unfold is_digit, is_space. intros H. apply andb_true_iff in H as [H1 H2].
  apply Nat.leb_le in H1. apply Nat.leb_le in H2.
  apply orb_false_iff. split.
  - apply Nat.eqb_neq. lia.
  - apply andb_false_iff. right. apply Nat.leb_gt. lia.
Qed.

Lemma digit_no_sign (c : ascii) (s : string) :
  is_digit c = true -> read_sign (String c s) = (false, String c s).
Proof.
  intros H. destruct c as [[|] [|] [|] [|] [|] [|] [|] [|]];
    try discriminate H; reflexivity.
Qed.

Lemma prefix_cons_ne (a c : ascii) (p s : string) :
  a <> c -> String.prefix (String a p) (String c s) = false.
Proof. intros H. cbn. destruct (ascii_dec a c); [contradiction | reflexivity]. Qed.

Lemma digit_not_Infinity (c : ascii) (s : string) :
  is_digit c = true -> String.prefix "Infinity" (String c s) = false.
Proof.
  intros H. apply prefix_cons_ne. intros <-. discriminate H.
Qed.

(** Comparing two fractions of integers with positive denominators. *)
Lemma Qfrac_le (a b c e : Z) :
  0 < b -> 0 < e ->
  ((inject_Z a / inject_Z b <= inject_Z c / inject_Z e)%Q <-> a * e <= c * b).
Proof.
  intros Hb He.
  destruct b as [|pb|pb]; try discriminate Hb.
  destruct e as [|pe|pe]; try discriminate He.
  rewrite <- !Qmake_Qdiv. unfold Qle. cbn [Qnum Qden]. reflexivity.
Qed.

Lemma Qmake_as_div (q : Q) :
  (q == inject_Z (Zpos (Qden q) * (Qnum q / Zpos (Qden q))
                  + Qnum q mod Zpos (Qden q)) / inject_Z (Zpos (Qden q)))%Q.
Proof.
  destruct q as [n d]. cbn [Qnum Qden].
  rewrite <- (Z.div_mod n (Zpos d)) by discriminate.
  apply Qmake_Qdiv.
Qed.

(** The arithmetic of cutting a decimal expansion: with [n] the integer
    part, [r / d] the fraction and [F / P] its printed digits, the value
    read back is not above the number, and not below any lower bound with
    one decimal that the number meets. *)
Lemma cut_bounds (n r d F P : Z) :
  0 <= n -> 0 <= r < d -> 0 <= F -> 0 < P ->
  F * d <= r * P -> r * P < (F + 1) * d ->
  (r <> 0 -> exists P', P = 10 * P' /\ 0 < P') ->
  (n * P + F) * d <= (d * n + r) * P /\
  forall m, m * d <= (d * n + r) * 10 -> m * P <= (n * P + F) * 10.
Proof.
  intros Hn Hr HF HP Hle Hlt Hk. split; [nia|].
  intros m Hm. destruct (Z.eq_dec r 0) as [->|Hne].
  - assert (F = 0) by nia. subst F.
    assert (m <= 10 * n) by nia. nia.
  - destruct (Hk Hne) as [P' [-> HP']].
    assert (Hs : (m - 10 * n) * d <= 10 * r) by nia.
    destruct (Z_le_gt_dec ((m - 10 * n) * P') F) as [Hok|Hbad]; [nia|].
    exfalso.
    assert (H1 : (F + 1) * d <= (m - 10 * n) * P' * d) by nia.
    assert (H2 : (m - 10 * n) * d * P' <= 10 * r * P').
    { apply Z.mul_le_mono_nonneg_r; lia. }
    nia.
Qed.

(** Reading a positional notation back gives a value between 0 and the
    number printed, and keeps every lower bound with one decimal. *)
Lemma parseFloat_plain (q : Q) :
  (0 <= q)%Q ->
  exists v,
    parseFloat (plain_string q) = Fin v /\ (0 <= v)%Q /\ (v <= q)%Q /\
    forall m, (inject_Z m / inject_Z 10 <= q)%Q -> (inject_Z m / inject_Z 10 <= v)%Q.
Proof.
  intros Hq.
  set (d := Zpos (Qden q)). set (n := Qnum q / d). set (r := Qnum q mod d).
  assert (Hd : 0 < d) by reflexivity.
  assert (Hn : 0 <= n).
  { apply Z.div_pos; [|exact Hd]. unfold Qle in Hq. cbn in Hq. lia. }
  assert (Hr : 0 <= r < d) by (apply Z.mod_pos_bound; exact Hd).
  destruct (int_string_spec n Hn) as [Hall [Hne Hval]].
  destruct (frac_digits_spec d frac_limit r Hr) as [Hfall [Hfnn [Hfle Hflt]]].
  set (fd := frac_digits frac_limit r d) in *.
  set (F := dval fd 0) in *. set (k := String.length fd) in *.
  assert (Hsplit : (q == inject_Z (d * n + r) / inject_Z d)%Q)
    by apply Qmake_as_div.
  (* the value read, whatever the tail *)
  assert (Hbound : forall F' k',
            0 <= F' -> F' * d <= r * 10 ^ Z.of_nat k' ->
            r * 10 ^ Z.of_nat k' < (F' + 1) * d ->
            (r <> 0 -> (1 <= k')%nat) ->
            let v := Qred (Qscale10 (inject_Z n + inject_Z F' / Qpow10 (Z.of_nat k')) 0) in
            (0 <= v)%Q /\ (v <= q)%Q /\
            forall m, (inject_Z m / inject_Z 10 <= q)%Q ->
                      (inject_Z m / inject_Z 10 <= v)%Q).
  { intros F' k' HF' Hle Hlt Hk v.
    set (P := 10 ^ Z.of_nat k') in *.
    assert (HP : 0 < P) by (apply Z.pow_pos_nonneg; lia).
    assert (Hv : (v == inject_Z (n * P + F') / inject_Z P)%Q).
    { subst v. rewrite Qred_correct. unfold Qscale10. cbn [Z.ltb Z.compare].
      change (Qpow10 0) with 1%Q. rewrite Qmult_1_r.
      unfold Qpow10. fold P. rewrite inject_Z_plus, inject_Z_mult.
      field. intros H0. apply (Qlt_irrefl 0).
      rewrite <- H0 at 2. rewrite <- (Zlt_Qlt 0). exact HP. }
    assert (Hk' : r <> 0 -> exists P', P = 10 * P' /\ 0 < P').
    { intros Hr0. specialize (Hk Hr0). exists (10 ^ (Z.of_nat k' - 1)). split.
      - unfold P. rewrite <- Z.pow_succ_r by lia. f_equal. lia.
      - apply Z.pow_pos_nonneg; lia. }
    destruct (cut_bounds n r d F' P Hn Hr HF' HP Hle Hlt Hk') as [Hup Hlow].
    split; [|split].
    - rewrite Hv. change 0%Q with (inject_Z 0 / inject_Z 1)%Q.
      apply (Qfrac_le 0 1 (n * P + F') P); [lia | exact HP | nia].
    - rewrite Hv, Hsplit.
      apply (Qfrac_le (n * P + F') P (d * n + r) d); [exact HP | exact Hd | exact Hup].
    - intros m Hm. rewrite Hsplit in Hm. rewrite Hv.
      apply (Qfrac_le m 10 (d * n + r) d) in Hm; [|lia | exact Hd].
      apply (Qfrac_le m 10 (n * P + F') P); [lia | exact HP |]. apply Hlow. lia. }
  unfold plain_string. fold d. fold n. fold r.
  destruct (int_string n) as [|c D] eqn:ED; [contradiction|].
  cbn [all_chars] in Hall. apply andb_true_iff in Hall as [Hc HD].
  assert (Hlen : exists m, (0 + String.length (String c D))%nat = S m)
    by (exists (String.length D); reflexivity).
  destruct Hlen as [m Hlen].
  destruct (r =? 0) eqn:Er.
  - (* no fraction *)
    rewrite append_empty_r. unfold parseFloat. cbn [skip_spaces].
    rewrite (digit_not_space c Hc), (digit_no_sign c D Hc),
      (digit_not_Infinity c D Hc).
    rewrite <- (append_empty_r (String c D)).
    rewrite (read_digits_spec (String c D) EmptyString) by
      (try reflexivity; cbn [all_chars]; rewrite Hc, HD; reflexivity).
    rewrite Hval, Hlen. cbn [read_exponent].
    eexists. split; [reflexivity|].
    apply Z.eqb_eq in Er.
    apply (Hbound 0 O); [lia | rewrite Er; lia | change (10 ^ Z.of_nat 0) with 1; lia
                        | intros H; contradiction].
  - (* a fraction follows the point *)
    rewrite append_cons. change (EmptyString +:+ fd) with fd.
    unfold parseFloat. rewrite append_cons. cbn [skip_spaces].
    rewrite (digit_not_space c Hc), (digit_no_sign c _ Hc),
      (digit_not_Infinity c _ Hc).
    rewrite <- append_cons.
    rewrite (read_digits_spec (String c D) (String "." fd)) by
      (try reflexivity; cbn [all_chars]; rewrite Hc, HD; reflexivity).
    rewrite Hval, Hlen.
    rewrite <- (append_empty_r fd).
    rewrite (read_digits_spec fd EmptyString Hfall eq_refl).
    fold F. cbn [read_exponent Nat.add]. fold k.
    eexists. split; [reflexivity|].
    apply (Hbound F k); try assumption.
    intros Hr0. apply (frac_digits_length d r 19 Hr0).
Qed.

(** A printed non-negative number made only of digits, points and minus
    signs reads back as a value between 0 and the number, above every lower
    bound with one decimal that the number meets. *)
Lemma parseFloat_toString_rotate (q : Q) :
  (0 <= q)%Q ->
  all_chars rotate_class (toString (Fin q)) = true ->
  exists v,
    parseFloat (toString (Fin q)) = Fin v /\ (0 <= v)%Q /\ (v <= q)%Q /\
    forall m, (inject_Z m / inject_Z 10 <= q)%Q -> (inject_Z m / inject_Z 10 <= v)%Q.
Proof.
  intros Hq. unfold toString.
  destruct (Qzero_b q) eqn:Ez.
  - intros _. exists 0%Q. split; [reflexivity|]. split; [lra|]. split; [exact Hq|].
    intros m Hm.
    assert (H0 : (q == 0)%Q).
    { unfold Qzero_b in Ez. apply Z.eqb_eq in Ez. unfold Qeq. cbn. lia. }
    rewrite H0 in Hm. exact Hm.
  - rewrite (Qneg_b_false q Hq). unfold pos_string.
    destruct (Qle_bool (Qpow10 21) q); [|destruct (Qle_bool (1 # 1000000) q)].
    + rewrite !all_chars_app. cbn [all_chars]. change (rotate_class "e") with false.
      cbn [andb]. rewrite andb_false_r. discriminate.
    + intros _. apply parseFloat_plain. exact Hq.
    + rewrite !all_chars_app. cbn [all_chars]. change (rotate_class "e") with false.
      cbn [andb]. rewrite andb_false_r. discriminate.
Qed.

(** *** The two patterns on a written transform *)

Lemma match_here_ne (a c : ascii) (pre : string) (cls : ascii -> bool)
    (post s : string) :
  Ascii.eqb c a = false ->
  match_here (String a pre) cls post (String c s) = None.
Proof.
  intros H. unfold match_here. rewrite prefix_cons_ne; [reflexivity|].
  intros ->. rewrite Ascii.eqb_refl in H. discriminate H.
Qed.

Lemma regex_capture_skip (a : ascii) (pre : string) (cls : ascii -> bool)
    (post A rest : string) :
  all_chars (fun c => negb (Ascii.eqb c a)) A = true ->
  regex_capture (String a pre) cls post (A +:+ rest)
  = regex_capture (String a pre) cls post rest.
Proof.
  induction A as [|c A IH]; intros HA; [reflexivity|].
  cbn [all_chars] in HA. apply andb_true_iff in HA as [Hc HA].
  apply negb_true_iff in Hc.
  rewrite append_cons. cbn [regex_capture].
  rewrite (match_here_ne a c pre cls post _ Hc). apply IH. exact HA.
Qed.

Lemma regex_capture_none (a : ascii) (pre : string) (cls : ascii -> bool)
    (post S : string) :
  all_chars (fun c => negb (Ascii.eqb c a)) S = true ->
  regex_capture (String a pre) cls post S = None.
Proof.
  intros HS. rewrite <- (append_empty_r S).
  rewrite (regex_capture_skip a pre cls post S EmptyString HS). reflexivity.
Qed.

Lemma span_class_all (cls : ascii -> bool) (R rest : string) :
  all_chars cls R = true ->
  match rest with EmptyString => true | String c _ => negb (cls c) end = true ->
  span_class cls (R +:+ rest) = (R, rest).
Proof.
  intros HR Hrest. induction R as [|c R IH].
  - change (EmptyString +:+ rest) with rest.
    destruct rest as [|c rest]; [reflexivity|].
    cbn [span_class]. apply negb_true_iff in Hrest. rewrite Hrest. reflexivity.
  - cbn [all_chars] in HR. apply andb_true_iff in HR as [Hc HR].
    rewrite append_cons. cbn [span_class]. rewrite Hc, (IH HR). reflexivity.
Qed.

Lemma span_class_stop (cls Q : ascii -> bool) (R rest : string) :
  all_chars Q R = true ->
  all_chars cls R = false ->
  exists R1 c R2,
    span_class cls (R +:+ rest) = (R1, String c R2) /\ Q c = true /\ cls c = false.
Proof.
  induction R as [|c R IH]; intros HQ Hcls; [discriminate Hcls|].
  cbn [all_chars] in HQ, Hcls. apply andb_true_iff in HQ as [HQc HQ].
  rewrite append_cons. cbn [span_class].
  destruct (cls c) eqn:Ec.
  - cbn [andb] in Hcls. destruct (IH HQ Hcls) as [R1 [c' [R2 [Hs [Hq Hc]]]]].
    rewrite Hs. exists (String c R1), c', R2. auto.
  - exists EmptyString, c, (R +:+ rest). auto.
Qed.

Lemma prefix_append (p s : string) : String.prefix p (p +:+ s) = true.
Proof.
  induction p as [|a p IH].
  - destruct s; reflexivity.
  - rewrite append_cons. cbn. destruct (ascii_dec a a); [exact IH | contradiction].
Qed.

Lemma drop_string_append (p s : string) :
  drop_string (String.length p) (p +:+ s) = s.
Proof. induction p as [|a p IH]; [reflexivity | exact IH]. Qed.

(** A character [toString] cannot produce differs from all it produces. *)
Lemma num_char_differs (a : ascii) (s : string) :
  num_char a = false ->
  all_chars num_char s = true ->
  all_chars (fun c => negb (Ascii.eqb c a)) s = true.
Proof.
  intros Ha. apply all_chars_impl. intros c Hc.
  destruct (Ascii.eqb_spec c a) as [->|]; [congruence | reflexivity].
Qed.

(** The pattern [pre (cls+) post] tried on [pre R post tail], where [R] is a
    printed number: it captures [R] when all of [R] is in the class, and
    finds nothing when the first character of [pre] does not occur again. *)
Lemma capture_here (a p0 : ascii) (pre' post' : string) (cls : ascii -> bool)
    (R tail : string) :
  all_chars num_char R = true ->
  R <> EmptyString ->
  num_char p0 = false ->
  cls p0 = false ->
  all_chars (fun c => negb (Ascii.eqb c a))
    (pre' +:+ R +:+ String p0 post' +:+ tail) = true ->
  regex_capture (String a pre') cls (String p0 post')
    (String a pre' +:+ R +:+ String p0 post' +:+ tail)
  = if all_chars cls R then Some R else None.
Proof.
  intros HR Hne Hp0 Hcls Hrest.
  assert (Hm : match_here (String a pre') cls (String p0 post')
                 (String a pre' +:+ R +:+ String p0 post' +:+ tail)
               = if all_chars cls R then Some R else None).
  { unfold match_here.
    rewrite prefix_append, drop_string_append.
    destruct (all_chars cls R) eqn:E.
    - rewrite (span_class_all cls R (String p0 post' +:+ tail) E)
        by (rewrite append_cons, Hcls; reflexivity).
      rewrite prefix_append. destruct R; [contradiction | reflexivity].
    - destruct (span_class_stop cls num_char R (String p0 post' +:+ tail) HR E)
        as [R1 [c [R2 [Hs [Hq Hc]]]]].
      rewrite Hs. destruct R1; [reflexivity|].
      rewrite prefix_cons_ne; [reflexivity|].
      intros <-. congruence. }
  rewrite append_cons in *. cbn [regex_capture]. rewrite Hm.
  destruct (all_chars cls R); [reflexivity|].
  apply regex_capture_none. exact Hrest.
Qed.

Lemma capture_written (a p0 : ascii) (pre' post' : string) (cls : ascii -> bool)
    (A R tail : string) :
  all_chars (fun c => negb (Ascii.eqb c a)) A = true ->
  all_chars num_char R = true ->
  R <> EmptyString ->
  num_char p0 = false ->
  cls p0 = false ->
  all_chars (fun c => negb (Ascii.eqb c a))
    (pre' +:+ R +:+ String p0 post' +:+ tail) = true ->
  regex_capture (String a pre') cls (String p0 post')
    (A +:+ String a pre' +:+ R +:+ String p0 post' +:+ tail)
  = if all_chars cls R then Some R else None.
Proof.
  intros HA HR Hne Hp0 Hcls Hrest.
  rewrite (regex_capture_skip a pre' cls (String p0 post') A _ HA).
  apply capture_here; assumption.
Qed.

Lemma toString_differs (a : ascii) (x : num) :
  num_char a = false ->
  all_chars (fun c => negb (Ascii.eqb c a)) (toString x) = true.
Proof. intros Ha. apply (num_char_differs a _ Ha), toString_chars. Qed.

(** What the rotate pattern captures from the transform written by
    [updateTransform], and from the one written by the key handler: the
    printed rotation when it is made of digits, points and minus signs, and
    nothing otherwise. *)
Lemma rotateMatch_full (s r : num) :
  rotateMatch (full_transform s r)
  = if all_chars rotate_class (toString r) then Some (toString r) else None.
Proof.
  unfold full_transform.
  change ("translate(-50%, -50%) scale(" +:+ toString s +:+ ") rotate(" +:+
          toString r +:+ "deg)")
    with (String "t" (String "r"
            ("anslate(-50%, -50%) scale(" +:+ toString s +:+ ") " +:+
             "rotate(" +:+ toString r +:+ "deg)" +:+ ""))).
  unfold rotateMatch. cbn [regex_capture].
  rewrite (match_here_ne "r" "t") by reflexivity.
  replace (match_here "rotate(" rotate_class "deg)" (String "r" _)) with (@None string)
    by reflexivity.
  rewrite <- (append_assoc (toString s) ") " _).
  rewrite <- (append_assoc "anslate(-50%, -50%) scale(" _ _).
  apply (capture_written "r" "d" "otate(" "eg)" rotate_class _ (toString r) "").
  - rewrite !all_chars_app, (toString_differs "r" s eq_refl). reflexivity.
  - apply toString_chars.
  - apply toString_nonempty.
  - reflexivity.
  - reflexivity.
  - rewrite !all_chars_app, (toString_differs "r" r eq_refl). reflexivity.
Qed.

Lemma rotateMatch_key (s r : num) :
  rotateMatch (key_transform s r)
  = if all_chars rotate_class (toString r) then Some (toString r) else None.
Proof.
  unfold key_transform.
  change ("scale(" +:+ toString s +:+ ") rotate(" +:+ toString r +:+ "deg)")
    with ("scale(" +:+ toString s +:+ ") " +:+ "rotate(" +:+ toString r +:+
          "deg)" +:+ "").
  rewrite <- (append_assoc (toString s) ") " _).
  rewrite <- (append_assoc "scale(" _ _).
  apply (capture_written "r" "d" "otate(" "eg)" rotate_class _ (toString r) "").
  - rewrite !all_chars_app, (toString_differs "r" s eq_refl). reflexivity.
  - apply toString_chars.
  - apply toString_nonempty.
  - reflexivity.
  - reflexivity.
  - rewrite !all_chars_app, (toString_differs "r" r eq_refl). reflexivity.
Qed.

(** The scale pattern likewise captures the printed scale when it is made
    of digits and points, and nothing otherwise. *)
Lemma scaleMatch_full (s r : num) :
  scaleMatch (full_transform s r)
  = if all_chars scale_class (toString s) then Some (toString s) else None.
Proof.
  unfold full_transform.
  change ("translate(-50%, -50%) scale(" +:+ toString s +:+ ") rotate(" +:+
          toString r +:+ "deg)")
    with ("tran" +:+
          String "s" ("late(-50%, -50%) " +:+ "scale(" +:+ toString s +:+ ")" +:+
                      (" rotate(" +:+ toString r +:+ "deg)"))).
  unfold scaleMatch.
  rewrite (regex_capture_skip "s" "cale(" scale_class ")" "tran" _ eq_refl).
  cbn [regex_capture].
  replace (match_here "scale(" scale_class ")" (String "s" _)) with (@None string)
    by reflexivity.
  apply (capture_written "s" ")" "cale(" "" scale_class _ (toString s)
           (" rotate(" +:+ toString r +:+ "deg)")).
  - reflexivity.
  - apply toString_chars.
  - apply toString_nonempty.
  - reflexivity.
  - reflexivity.
  - rewrite !all_chars_app, (toString_differs "s" s eq_refl),
      (toString_differs "s" r eq_refl). reflexivity.
Qed.

Lemma scaleMatch_key (s r : num) :
  scaleMatch (key_transform s r)
  = if all_chars scale_class (toString s) then Some (toString s) else None.
Proof.
  unfold key_transform.
  change ("scale(" +:+ toString s +:+ ") rotate(" +:+ toString r +:+ "deg)")
    with ("scale(" +:+ toString s +:+ ")" +:+ (" rotate(" +:+ toString r +:+ "deg)")).
  unfold scaleMatch.
  apply (capture_here "s" ")" "cale(" "" scale_class (toString s)
           (" rotate(" +:+ toString r +:+ "deg)")).
  - apply toString_chars.
  - apply toString_nonempty.
  - reflexivity.
  - reflexivity.
  - rewrite !all_chars_app, (toString_differs "s" s eq_refl),
      (toString_differs "s" r eq_refl). reflexivity.
Qed.

(** ** The rotation range (C4) *)

(** *** The browser between two events

    The script assigns strings to [style.transform] and reads them back at
    a later event. A browser does not hand back the string it was given: it
    hands back the declaration it has parsed, with its numbers written out
    again, and it keeps the old declaration when the new one is not valid
    CSS. *)
















(** *** Each handler keeps its element within [0, 360] *)













(** *** From the handlers to every run

    A property of elements that each handler keeps on its own element holds
    of every element after any sequence of events. *)

Section Preservation.

Variable host : Host.
Variable P : Elem -> Prop.

Hypothesis P_key :
  forall key el s r,
    P el ->
    key_switch key (key_scale (style_transform (style el)))
      (key_rotation (style_transform (style el))) = Some (s, r) ->
    P (with_style (with_transform (key_transform s r)) el).
Hypothesis P_pressed : forall p lay el, P el -> P (pressed p lay el).
Hypothesis P_moved : forall p el, P el -> P (moved p el).
Hypothesis P_released : forall el, P el -> P (with_dragging None el).
Hypothesis P_wheeled : forall dy el, P el -> P (wheeled dy el).
Hypothesis P_turned : forall el, P el -> P (turned el).
Hypothesis P_started : forall t1 t2 el, P el -> P (gesture_started host t1 t2 el).
Hypothesis P_pinch : forall t1 t2 el, P el -> P (pinch host t1 t2 el).
Hypothesis P_reset :
  forall el, P el -> P (with_closure (with_touchStart (Fin 0) (Fin 0)) el).

Lemma world_holds_with_elem (id : string) (el : Elem) (w : World) :
  world_holds P w -> P el -> world_holds P (with_elem id el w).
Proof.
  intros Hw Hel id' el'. cbn [elems with_elem].
  destruct (decide (id = id')) as [->|Hne].
  - rewrite lookup_insert_eq. intros [= <-]. exact Hel.
  - rewrite lookup_insert_ne by exact Hne. apply Hw.
Qed.

Lemma world_holds_same (w w' : World) :
  elems w' = elems w -> world_holds P w -> world_holds P w'.
Proof. intros He Hw id el. rewrite He. apply Hw. Qed.

Lemma handlePointerUp_holds (id : string) (w : World) :
  world_holds P w -> world_holds P (handlePointerUp id w).
Proof.
  intros Hw. unfold handlePointerUp.
  apply (world_holds_same
           (updateStatus idle_message
              match elems w !! id with
              | Some el => with_elem id (with_dragging None el) w
              | None => w
              end)); [reflexivity|].
  apply (world_holds_same _ _ (elems_updateStatus _ _)).
  destruct (elems w !! id) as [el|] eqn:E; [|exact Hw].
  apply world_holds_with_elem; [exact Hw|]. apply P_released, (Hw id el E).
Qed.

Lemma handlePointerMove_holds (id : string) (p : Point) (w : World) :
  world_holds P w -> world_holds P (handlePointerMove id p w).
Proof.
  intros Hw. unfold handlePointerMove.
  destruct (elems w !! id) as [el|] eqn:E; [|exact Hw].
  apply world_holds_with_elem.
  - apply (world_holds_same _ _ (elems_updateStatus _ _)). exact Hw.
  - apply P_moved, (Hw id el E).
Qed.

Lemma step_holds (w : World) (ev : event) :
  world_holds P w -> world_holds P (step host w ev).
Proof.
  intros Hw.
  destruct ev as [key|t touches lay|t touches|t touches|t p lay|p| |t dy|t];
    cbn [step].
  - unfold keydown. destruct (selectedElement w) as [id|]; [|exact Hw].
    destruct (elems w !! id) as [el|] eqn:E; [|exact Hw].
    destruct (key_switch key _ _) as [[s r]|] eqn:K; [|exact Hw].
    apply world_holds_with_elem; [exact Hw|].
    apply (P_key key el s r (Hw id el E) K).
  - unfold touchstart. destruct (elems w !! t) as [el|] eqn:E; [|exact Hw].
    destruct touches as [|t1 [|t2 [|t3 rest]]]; try exact Hw.
    apply world_holds_with_elem; [exact Hw|].
    apply P_started, (Hw t el E).
  - unfold touchmove. destruct (elems w !! t) as [el|] eqn:E; [|exact Hw].
    destruct touches as [|t1 [|t2 [|t3 rest]]]; try exact Hw.
    + apply handlePointerMove_holds, Hw.
    + apply world_holds_with_elem; [exact Hw|].
      apply P_pinch, (Hw t el E).
  - unfold touchend. destruct (elems w !! t) as [el|] eqn:E; [|exact Hw].
    assert (Hreset : world_holds P
              (with_elem t (with_closure (with_touchStart (Fin 0) (Fin 0)) el) w)).
    { apply world_holds_with_elem; [exact Hw|]. apply P_reset, (Hw t el E). }
    destruct touches as [|t1 [|t2 rest]]; cbn [length Nat.ltb Nat.leb].
    + apply handlePointerUp_holds. exact Hreset.
    + exact Hreset.
    + exact Hw.
  - unfold onpointerdown. destruct (elems w !! t) as [el|] eqn:E; [|exact Hw].
    cbn [handlePointerDown elems with_selected]. rewrite E.
    apply (world_holds_same (with_elem t (pressed p lay el) (with_selected t w)));
      [reflexivity|].
    apply world_holds_with_elem; [exact Hw|].
    apply P_pressed, (Hw t el E).
  - destruct (onpointermove w) as [id|]; [|exact Hw].
    apply handlePointerMove_holds, Hw.
  - destruct (onpointerup w) as [id|]; [|exact Hw].
    apply handlePointerUp_holds, Hw.
  - destruct (onwheel w) as [id|]; [|exact Hw].
    unfold handleWheel. destruct (String.eqb t id); [|exact Hw].
    destruct (elems w !! id) as [el|] eqn:E; [|exact Hw].
    apply world_holds_with_elem; [exact Hw|].
    apply P_wheeled, (Hw id el E).
  - destruct (oncontextmenu w) as [id|]; [|exact Hw].
    unfold handleRightClick. destruct (String.eqb t id); [|exact Hw].
    destruct (elems w !! id) as [el|] eqn:E; [|exact Hw].
    apply world_holds_with_elem; [exact Hw|].
    apply P_turned, (Hw id el E).
Qed.

Lemma run_holds (evs : list event) :
  forall w, world_holds P w -> world_holds P (run host w evs).
Proof.
  induction evs as [|ev evs IH]; intros w Hw; [exact Hw|].
  rewrite run_cons. apply IH. apply step_holds. exact Hw.
Qed.

End Preservation.




(** *** What the browser hands back stays within [0, 360] *)




(** The assignments of [assigned_transform] are those of the handlers: the
    element has the transform written from that scale and that rotation, by
    [updateTransform] or by the key handler. *)
Lemma assigned_transform_written (host : Host) (w : World) (ev : event)
    (id : string) (s r : num) :
  assigned_transform host w ev = Some (id, s, r) ->
  exists el',
    elems (step host w ev) !! id = Some el' /\
    (style_transform (style el') = full_transform s r \/
     style_transform (style el') = key_transform s r).
Proof.
  destruct ev as [key|t touches lay|t touches|t touches|t p lay|p| |t dy|t];
    cbn [assigned_transform step]; try discriminate.
  - unfold keydown. destruct (selectedElement w) as [i|]; [|discriminate].
    destruct (elems w !! i) as [el|] eqn:E; [|discriminate].
    destruct (key_switch key _ _) as [[s' r']|] eqn:K; [|discriminate].
    intros [= <- <- <-]. eexists. split; [apply lookup_insert_eq|].
    right. reflexivity.
  - destruct touches as [|t1 [|t2 [|t3 rest]]]; try discriminate.
    unfold touchmove.
    destruct (elems w !! t) as [el|] eqn:E; [|discriminate].
    intros [= <- <- <-]. eexists. split; [apply lookup_insert_eq|].
    left. reflexivity.
  - destruct (onwheel w) as [i|]; [|discriminate]. unfold handleWheel.
    destruct (String.eqb t i); [|discriminate].
    destruct (elems w !! i) as [el|] eqn:E; [|discriminate].
    intros [= <- <- <-]. eexists. split; [apply lookup_insert_eq|].
    left. reflexivity.
  - destruct (oncontextmenu w) as [i|]; [|discriminate]. unfold handleRightClick.
    destruct (String.eqb t i); [|discriminate].
    destruct (elems w !! i) as [el|] eqn:E; [|discriminate].
    intros [= <- <- <-]. eexists. split; [apply lookup_insert_eq|].
    left. reflexivity.
Qed.




(** Every run of the model is a run in a browser that keeps the strings. *)
Lemma run_browser_run (host : Host) (evs : list event) :
  forall w w', browser_run host w w' -> browser_run host w (run host w' evs).
Proof.
  induction evs as [|ev evs IH]; intros w w' H; [exact H|].
  rewrite run_cons. apply IH.
  apply (browser_next host w w' _ H). apply kept_as_assigned.
Qed.


Ltac kept x :=
  let H := fresh "H" in intros H; exists x; split; [exact H | reflexivity].

(** An event that assigns no transform leaves every transform as it was. *)
Lemma unassigned_transform_kept (host : Host) (w : World) (ev : event)
    (id : string) (el' : Elem) :
  assigned_transform host w ev = None ->
  elems (step host w ev) !! id = Some el' ->
  exists el,
    elems w !! id = Some el /\
    style_transform (style el') = style_transform (style el).
Proof.
  assert (Hsame : forall i e0 e1 (w0 : World) x,
            elems w0 !! i = Some e0 ->
            style_transform (style e1) = style_transform (style e0) ->
            elems (with_elem i e1 w0) !! id = Some x ->
            exists el, elems w0 !! id = Some el /\
                       style_transform (style x) = style_transform (style el)).
  { intros i e0 e1 w0 x H0 Ht. cbn [elems with_elem].
    destruct (decide (i = id)) as [->|Hne].
    - rewrite lookup_insert_eq. intros [= <-]. exists e0. auto.
    - rewrite lookup_insert_ne by exact Hne. kept x. }
  assert (Hmove : forall i p,
            elems (handlePointerMove i p w) !! id = Some el' ->
            exists el, elems w !! id = Some el /\
                       style_transform (style el') = style_transform (style el)).
  { intros i p. unfold handlePointerMove.
    destruct (elems w !! i) as [e0|] eqn:E; [|kept el'].
    intros H. apply (Hsame i e0 _ _ el') in H; [| |reflexivity].
    - rewrite elems_updateStatus in H. exact H.
    - rewrite elems_updateStatus. exact E. }
  assert (Hup : forall i (w0 : World),
            elems (handlePointerUp i w0) !! id = Some el' ->
            exists el, elems w0 !! id = Some el /\
                       style_transform (style el') = style_transform (style el)).
  { intros i w0. unfold handlePointerUp. cbn [elems with_handlers].
    rewrite elems_updateStatus.
    destruct (elems w0 !! i) as [e0|] eqn:E; [|kept el'].
    apply (Hsame i e0); [exact E | reflexivity]. }
  destruct ev as [key|t touches lay|t touches|t touches|t p lay|p| |t dy|t];
    cbn [assigned_transform step].
  - unfold keydown. destruct (selectedElement w) as [i|]; [|intros _; kept el'].
    destruct (elems w !! i) as [e0|] eqn:E; [|intros _; kept el'].
    destruct (key_switch key _ _) as [[s r]|]; [discriminate|].
    intros _. kept el'.
  - intros _. unfold touchstart.
    destruct (elems w !! t) as [e0|] eqn:E; [|kept el'].
    destruct touches as [|t1 [|t2 [|t3 rest]]]; try (kept el').
    intros H. apply (Hsame t e0 (gesture_started host t1 t2 e0) w el' E eq_refl).
    exact H.
  - unfold touchmove.
    destruct touches as [|t1 [|t2 [|t3 rest]]];
      destruct (elems w !! t) as [e0|] eqn:E; try discriminate;
      intros _; try (kept el').
    apply Hmove.
  - intros _. unfold touchend.
    destruct (elems w !! t) as [e0|] eqn:E; [|kept el'].
    destruct touches as [|t1 [|t2 rest]]; cbn [length Nat.ltb Nat.leb].
    + intros H. apply Hup in H. destruct H as [e1 [H1 H2]].
      apply (Hsame t e0 (with_closure (with_touchStart (Fin 0) (Fin 0)) e0) w e1 E
               eq_refl) in H1. destruct H1 as [e2 [H3 H4]].
      exists e2. split; [exact H3|]. rewrite H2. exact H4.
    + apply (Hsame t e0); [exact E | reflexivity].
    + kept el'.
  - intros _. unfold onpointerdown.
    destruct (elems w !! t) as [e0|] eqn:E; [|kept el'].
    cbn [handlePointerDown elems with_selected]. rewrite E.
    change (elems (with_handlers (Some t)
                     (with_elem t (pressed p lay e0) (with_selected t w))) !! id)
      with (elems (with_elem t (pressed p lay e0) w) !! id).
    apply (Hsame t e0); [exact E|].
    unfold pressed, track_position. cbn [style].
    destruct (is_empty_string _ || _); reflexivity.
  - intros _. destruct (onpointermove w) as [i|]; [apply Hmove|].
    kept el'.
  - intros _. destruct (onpointerup w) as [i|]; [apply Hup|].
    kept el'.
  - destruct (onwheel w) as [i|]; [|intros _; kept el'].
    unfold handleWheel. destruct (String.eqb t i); [|intros _; kept el'].
    destruct (elems w !! i) as [e0|]; [discriminate|].
    intros _. kept el'.
  - destruct (oncontextmenu w) as [i|]; [|intros _; kept el'].
    unfold handleRightClick. destruct (String.eqb t i); [|intros _; kept el'].
    destruct (elems w !! i) as [e0|]; [discriminate|].
    intros _. kept el'.
Qed.




(** *** A twist that the browser hands back as 360 degrees *)






(** On that page a right-click takes the 360 degrees to 15, and ArrowLeft
    writes 345. *)
Example rotation_after_360 :
  exists el1 el2,
    elems (step near_host pressed_world (Contextmenu "plant1")) !! "plant1"
      = Some el1 /\
    rotation (vars el1) = Fin 15 /\
    elems (step near_host pressed_world (Keydown "ArrowLeft")) !! "plant1"
      = Some el2 /\
    style_transform (style el2) = "scale(1) rotate(345deg)".
Proof.
  eexists _, _. split; [vm_compute; reflexivity|]. split; [reflexivity|].
  split; [vm_compute; reflexivity|]. reflexivity.
Qed.

(** Wrap-around in both directions, run on the sample page: ArrowLeft from
    rotation 0 writes 345, and a twist by a quarter turn clockwise from 0
    stores 270. *)
Example rotation_wraps :
  exists el1 el2,
    elems (run sample_host sample_world
             [Pointerdown "plant1" (pt 100 100) no_layout; Keydown "ArrowLeft"])
      !! "plant1" = Some el1 /\
    style_transform (style el1) = "scale(1) rotate(345deg)" /\
    elems (run sample_host sample_world
             [Touchstart "plant1" [pt 0 0; pt 10 0] no_layout;
              Touchmove "plant1" [pt 0 0; pt 0 (-10)]]) !! "plant1" = Some el2 /\
    rotation (vars el2) = Fin 270.
Proof.
  eexists _, _. split; [vm_compute; reflexivity|]. split; [reflexivity|].
  split; [vm_compute; reflexivity|]. reflexivity.
Qed.

(** ** The scale range apart from [NaN] (C1) *)

Lemma in_scale_range_one : in_scale_range (Fin 1).
Proof. exists 1%Q. split; [reflexivity|]. split; lra. Qed.

(** The clamp yields a scale in range, or [NaN] from [NaN]. *)
Lemma clamp_scale_ok (x : num) : scale_ok (clamp_scale x).
Proof.
  destruct x as [|[|]|q].
  - left. reflexivity.
  - right. exists (3 # 10)%Q. split; [reflexivity|]. split; lra.
  - right. exists 3%Q. split; [reflexivity|]. split; lra.
  - right. rewrite clamp_scale_fin. eexists. split; [reflexivity|].
    apply clamp_to_range. lra.
Qed.

Lemma clamp_scale_NaN_only (x : num) : clamp_scale x = NaN -> x = NaN.
Proof.
  destruct x as [|[|]|q]; try reflexivity; try discriminate.
  rewrite clamp_scale_fin. discriminate.
Qed.

Lemma key_scale_ok (t : string) : transform_scale_ok t -> in_scale_range (key_scale t).
Proof.
  intros Ht. unfold key_scale.
  destruct (scaleMatch t) as [c|] eqn:E; [apply Ht; exact E | apply in_scale_range_one].
Qed.

Lemma key_switch_scale (key : string) (s0 r0 s r : num) :
  key_switch key s0 r0 = Some (s, r) -> in_scale_range s0 -> in_scale_range s.
Proof.
  unfold key_switch. intros H [q [-> [H0 H1]]].
  destruct (String.eqb key "ArrowUp").
  { injection H as <- _. unfold num_add, fin. rewrite Math_min_fin.
    pose proof (Qred_correct (q + (1 # 10))) as Hq.
    destruct (Qle_bool 3 (Qred (q + (1 # 10)))) eqn:E.
    - exists 3%Q. split; [reflexivity|]. split; lra.
    - eexists. split; [reflexivity|]. split; [lra|].
      destruct (Qlt_le_dec (Qred (q + (1 # 10))) 3) as [Hlt|Hge]; [lra|].
      apply Qle_bool_iff in Hge. congruence. }
  destruct (String.eqb key "ArrowDown").
  { injection H as <- _. unfold num_sub, fin. rewrite Math_max_fin.
    pose proof (Qred_correct (q - (1 # 10))) as Hq.
    destruct (Qle_bool (3 # 10) (Qred (q - (1 # 10)))) eqn:E.
    - apply Qle_bool_iff in E. eexists. split; [reflexivity|]. split; [exact E | lra].
    - exists (3 # 10)%Q. split; [reflexivity|]. split; lra. }
  destruct (String.eqb key "ArrowLeft");
    [injection H as <- _; exists q; auto|].
  destruct (String.eqb key "ArrowRight");
    [injection H as <- _; exists q; auto|].
  discriminate H.
Qed.

Lemma scale_class_rotate_class (c : ascii) :
  scale_class c = true -> rotate_class c = true.
Proof. unfold rotate_class, scale_class. intros ->. reflexivity. Qed.

Lemma transform_scale_ok_written (t : string) (s : num) :
  scaleMatch t
  = (if all_chars scale_class (toString s) then Some (toString s) else None) ->
  scale_ok s -> transform_scale_ok t.
Proof.
  intros Ht Hs c Hc. rewrite Ht in Hc.
  destruct Hs as [->|[q [-> [H0 H1]]]]; [discriminate Hc|].
  destruct (all_chars scale_class (toString (Fin q))) eqn:E; [|discriminate Hc].
  injection Hc as <-.
  assert (Hq : (0 <= q)%Q) by lra.
  destruct (parseFloat_toString_rotate q Hq
              (all_chars_impl _ _ _ scale_class_rotate_class E))
    as [v [Hv [_ [Hv1 Hlow]]]].
  exists v. split; [exact Hv|]. split; [|lra].
  assert (H3 : (3 # 10 == inject_Z 3 / inject_Z 10)%Q) by reflexivity.
  rewrite H3. apply Hlow. rewrite <- H3. exact H0.
Qed.

Lemma updateTransform_scale_ok (el : Elem) :
  scale_ok (scale (vars el)) -> elem_scale_ok (updateTransform el).
Proof.
  intros Hs. split; [exact Hs|].
  apply (transform_scale_ok_written _ (scale (vars el))); [|exact Hs].
  apply scaleMatch_full.
Qed.

Lemma key_written_scale_ok (key : string) (el : Elem) (s r : num) :
  elem_scale_ok el ->
  key_switch key (key_scale (style_transform (style el)))
    (key_rotation (style_transform (style el))) = Some (s, r) ->
  elem_scale_ok (with_style (with_transform (key_transform s r)) el).
Proof.
  intros [Hs Ht] K. split; [exact Hs|].
  apply (transform_scale_ok_written _ s); [apply scaleMatch_key|].
  right. apply (key_switch_scale _ _ _ _ _ K). apply key_scale_ok, Ht.
Qed.

Lemma pressed_scale_ok (p : Point) (lay : Layout) (el : Elem) :
  elem_scale_ok el -> elem_scale_ok (pressed p lay el).
Proof.
  intros [Hs Ht]. split.
  - unfold pressed, reparse. cbn [vars scale with_current].
    destruct (rotateMatch _) as [m|]; destruct (scaleMatch _) as [m'|] eqn:Em;
      cbn [scale with_rotation with_scale]; try exact Hs;
      right; apply Ht; exact Em.
  - unfold pressed, track_position. cbn [style].
    destruct (is_empty_string _ || _); exact Ht.
Qed.

Lemma wheeled_scale_ok (dy : Q) (el : Elem) :
  elem_scale_ok el -> elem_scale_ok (wheeled dy el).
Proof. intros _. unfold wheeled. apply updateTransform_scale_ok, clamp_scale_ok. Qed.

Lemma turned_scale_ok (el : Elem) : elem_scale_ok el -> elem_scale_ok (turned el).
Proof. intros [Hs _]. unfold turned. apply updateTransform_scale_ok, Hs. Qed.

Lemma pinch_scale_ok (host : Host) (t1 t2 : Point) (el : Elem) :
  elem_scale_ok el -> elem_scale_ok (pinch host t1 t2 el).
Proof. intros _. unfold pinch. apply updateTransform_scale_ok, clamp_scale_ok. Qed.

Lemma run_scale_ok (host : Host) (evs : list event) (w : World) :
  world_holds elem_scale_ok w -> world_holds elem_scale_ok (run host w evs).
Proof.
  apply run_holds.
  - apply key_written_scale_ok.
  - apply pressed_scale_ok.
  - intros p el H. exact H.
  - intros el H. exact H.
  - apply wheeled_scale_ok.
  - apply turned_scale_ok.
  - intros t1 t2 el H. exact H.
  - apply pinch_scale_ok.
  - intros el H. exact H.
Qed.

(** Apart from the [NaN] of C1, the range of the scale holds: starting from
    elements with scale 1, after any sequence of events the scale stored in
    each element's closure is [NaN] or within [0.3, 3.0], and the scale the
    key handler reads back from its transform is within [0.3, 3.0]. *)
Lemma scale_in_range_unless_NaN (host : Host) (w : World) (evs : list event)
    (id : string) (el : Elem) :
  (forall id0 el0, elems w !! id0 = Some el0 -> starts_unscaled el0) ->
  elems (run host w evs) !! id = Some el ->
  (scale (vars el) = NaN \/ in_scale_range (scale (vars el))) /\
  in_scale_range (key_scale (style_transform (style el))).
Proof.
  intros Hstart Hel.
  assert (Hw : world_holds elem_scale_ok w).
  { intros id0 el0 H0. destruct (Hstart id0 el0 H0) as [Hv Ht].
    split; [|exact Ht]. rewrite Hv. right. apply in_scale_range_one. }
  destruct (run_scale_ok host evs w Hw id el Hel) as [Hs Ht].
  split; [exact Hs | apply key_scale_ok, Ht].
Qed.

(** The stored scale turns [NaN] only in the pinch branch, and only when the
    product of the baseline scale and the distance ratio is [NaN]. *)
Lemma pinch_NaN_only (host : Host) (t1 t2 : Point) (el : Elem) :
  scale (vars (pinch host t1 t2 el)) = NaN ->
  num_mul (initialScale (vars el))
    (num_div (getDistance host t1 t2) (touchStartDistance (vars el))) = NaN.
Proof. rewrite pinch_scale. apply clamp_scale_NaN_only. Qed.

(** * Further properties of the script *)

(** ** The setup loop *)

Lemma load_elems (doc : gmap string Style) (status : option string)
    (id : string) :
  elems (load doc status) !! id
  = if bool_decide (id ∈ draggableIds) then init_elem <$> doc !! id else None.
Proof.
  unfold load. cbn [elems].
  induction draggableIds as [|a l IH]; cbn [foldr].
  - rewrite lookup_empty. reflexivity.
  - destruct (decide (a = id)) as [->|Hne].
    + rewrite bool_decide_eq_true_2 by apply list_elem_of_here.
      destruct (doc !! id) as [st|] eqn:E.
      * rewrite lookup_insert_eq. reflexivity.
      * rewrite IH. destruct (bool_decide (id ∈ l)); reflexivity.
    + assert (Hmem : bool_decide (id ∈ a :: l) = bool_decide (id ∈ l)).
      { apply bool_decide_ext. rewrite elem_of_cons. naive_solver. }
      rewrite Hmem, <- IH.
      destruct (doc !! a); [apply lookup_insert_ne; exact Hne | reflexivity].
Qed.

(** X1: the setup makes draggable exactly the elements the document has
    among plant1 .. plant14 and animal1 .. animal7. Such an element keeps
    its inline style when it has both a [top] and a [left], and is centred
    otherwise (position absolute, top and left 50%, the translate by -50%);
    it starts with scale 1, rotation 0 and no [data-dragging] attribute.
    Any other id has no entry, nothing is selected, the status text is
    untouched and no handler is installed on the document. *)
Theorem load_lookup (doc : gmap string Style) (status : option string)
    (id : string) :
  (forall st,
     id ∈ listed_ids -> doc !! id = Some st ->
     elems (load doc status) !! id
     = Some {| style :=
                 if decide (style_top st = EmptyString \/ style_left st = EmptyString)
                 then {| style_position := "absolute"; style_top := "50%";
                         style_left := "50%";
                         style_transform := "translate(-50%, -50%)";
                         var_scale := var_scale st;
                         var_rotation := var_rotation st |}
                 else st;
               data_dragging := None;
               vars := {| currentX := Fin 0; currentY := Fin 0;
                          initialScale := Fin 1; initialRotation := Fin 0;
                          scale := Fin 1; rotation := Fin 0;
                          touchStartDistance := Fin 0;
                          touchStartAngle := Fin 0 |} |}) /\
  (id ∉ listed_ids \/ doc !! id = None -> elems (load doc status) !! id = None) /\
  selectedElement (load doc status) = None /\
  statusText (load doc status) = status /\
  onpointermove (load doc status) = None /\
  onpointerup (load doc status) = None /\
  onwheel (load doc status) = None /\
  oncontextmenu (load doc status) = None.
Proof.
  assert (Hids : draggableIds = listed_ids) by reflexivity.
  split; [|split; [|repeat split]].
  - intros st Hin Hdoc. rewrite load_elems, Hids.
    rewrite bool_decide_eq_true_2 by exact Hin.
    rewrite Hdoc. cbn [fmap option_fmap option_map]. f_equal.
    unfold init_elem, fresh_closure. f_equal.
    destruct (style_top st) as [|c1 s1] eqn:Et;
      destruct (style_left st) as [|c2 s2] eqn:El; cbn [is_empty_string orb];
      destruct (decide _) as [[H|H]|H]; try discriminate H; try reflexivity;
      exfalso; apply H; auto.
  - intros [Hout|Hnone]; rewrite load_elems, Hids.
    + rewrite bool_decide_eq_false_2 by exact Hout. reflexivity.
    + rewrite Hnone. destruct (bool_decide _); reflexivity.
Qed.

Lemma load_lookup_witness :
  elems (load placed_doc (Some idle_message)) !! "plant1"
  = Some {| style := {| style_position := "absolute"; style_top := "200px";
                        style_left := "300px"; style_transform := "";
                        var_scale := ""; var_rotation := "" |};
            data_dragging := None;
            vars := {| currentX := Fin 0; currentY := Fin 0;
                       initialScale := Fin 1; initialRotation := Fin 0;
                       scale := Fin 1; rotation := Fin 0;
                       touchStartDistance := Fin 0;
                       touchStartAngle := Fin 0 |} |} /\
  elems (load sample_doc (Some idle_message)) !! "animal1"
  = Some {| style := {| style_position := "absolute"; style_top := "50%";
                        style_left := "50%";
                        style_transform := "translate(-50%, -50%)";
                        var_scale := ""; var_rotation := "" |};
            data_dragging := None;
            vars := {| currentX := Fin 0; currentY := Fin 0;
                       initialScale := Fin 1; initialRotation := Fin 0;
                       scale := Fin 1; rotation := Fin 0;
                       touchStartDistance := Fin 0;
                       touchStartAngle := Fin 0 |} |} /\
  elems (load sample_doc (Some idle_message)) !! "plant15" = None /\
  elems (load placed_doc (Some idle_message)) !! "animal1" = None.
Proof.
  split; [|split; [|split]].
  - apply (proj1 (load_lookup placed_doc (Some idle_message) "plant1")
             {| style_position := "absolute"; style_top := "200px";
                style_left := "300px"; style_transform := "";
                var_scale := ""; var_rotation := "" |}).
    + apply (bool_decide_unpack _). vm_compute. exact I.
    + reflexivity.
  - apply (proj1 (load_lookup sample_doc (Some idle_message) "animal1") no_style).
    + apply (bool_decide_unpack _). vm_compute. exact I.
    + reflexivity.
  - apply (proj1 (proj2 (load_lookup sample_doc (Some idle_message) "plant15"))).
    left. apply (bool_decide_unpack _). vm_compute. exact I.
  - apply (proj1 (proj2 (load_lookup placed_doc (Some idle_message) "animal1"))).
    right. reflexivity.
Defined.

Lemma init_elem_positioned (st : Style) : positioned (init_elem st).
Proof.
  unfold positioned, init_elem. cbn [style].
  destruct (is_empty_string (style_top st)) eqn:E1; [split; discriminate|].
  destruct (is_empty_string (style_left st)) eqn:E2; [split; discriminate|].
  cbn [orb]. split.
  - intros H. rewrite H in E1. discriminate E1.
  - intros H. rewrite H in E2. discriminate E2.
Qed.

Lemma px_nonempty (x : num) : toString x +:+ "px" <> EmptyString.
Proof. apply append_nonempty, toString_nonempty. Qed.

Lemma pressed_positioned (p : Point) (lay : Layout) (el : Elem) :
  positioned el -> positioned (pressed p lay el).
Proof.
  intros [Ht Hl]. unfold positioned, pressed, track_position. cbn [style].
  destruct (is_empty_string _ || _); cbn [style_top style_left with_top_left].
  - split; apply px_nonempty.
  - split; assumption.
Qed.

Lemma updateTransform_positioned (el : Elem) :
  positioned el -> positioned (updateTransform el).
Proof. intros H. exact H. Qed.

(** X2: after the setup every draggable element has a non-empty [top] and
    [left], and every event keeps it so: the pointer-down never finds an
    unset position to initialise, save for a [top] of [auto]. *)
Theorem always_positioned (host : Host) (doc : gmap string Style)
    (status : option string) (evs : list event) (id : string) (el : Elem) :
  elems (run host (load doc status) evs) !! id = Some el ->
  style_top (style el) <> EmptyString /\ style_left (style el) <> EmptyString.
Proof.
  revert id el. fold (world_holds positioned (run host (load doc status) evs)).
  apply run_holds.
  - intros key el s r H _. exact H.
  - apply pressed_positioned.
  - intros p el _. split; apply px_nonempty.
  - intros el H. exact H.
  - intros dy el H. exact H.
  - intros el H. exact H.
  - intros t1 t2 el H. exact H.
  - intros t1 t2 el H. exact H.
  - intros el H. exact H.
  - intros id el. rewrite load_elems.
    destruct (bool_decide _); [|discriminate].
    destruct (doc !! id) as [st|]; [|discriminate].
    intros [= <-]. apply init_elem_positioned.
Qed.

(** ** Selection, ownership and the status region *)

Lemma step_draggable (host : Host) (w : World) (ev : event) (t : string) :
  is_draggable (step host w ev) t = is_draggable w t.
Proof.
  destruct ev as [key|u touches lay|u touches|u touches|u p lay|p| |u dy|u];
    cbn [step].
  - unfold keydown. destruct (selectedElement w) as [id|]; [|reflexivity].
    destruct (elems w !! id) as [el|] eqn:E; [|reflexivity].
    destruct (key_switch key _ _) as [[s r]|]; [|reflexivity].
    apply (is_draggable_with_elem w id t _ el E).
  - unfold touchstart. destruct (elems w !! u) as [el|] eqn:E; [|reflexivity].
    destruct touches as [|t1 [|t2 [|t3 rest]]]; try reflexivity.
    apply (is_draggable_with_elem (with_selected u w) u t _ el E).
  - unfold touchmove. destruct (elems w !! u) as [el|] eqn:E; [|reflexivity].
    destruct touches as [|t1 [|t2 [|t3 rest]]]; try reflexivity.
    + apply is_draggable_handlePointerMove.
    + apply (is_draggable_with_elem w u t _ el E).
  - unfold touchend. destruct (elems w !! u) as [el|] eqn:E; [|reflexivity].
    destruct touches as [|t1 [|t2 rest]]; cbn [length Nat.ltb Nat.leb].
    + rewrite is_draggable_handlePointerUp.
      apply (is_draggable_with_elem w u t _ el E).
    + apply (is_draggable_with_elem w u t _ el E).
    + reflexivity.
  - unfold onpointerdown. destruct (elems w !! u) as [el|] eqn:E; [|reflexivity].
    cbn [handlePointerDown elems with_selected]. rewrite E.
    apply (is_draggable_with_elem (with_selected u w) u t _ el E).
  - destruct (onpointermove w) as [id|]; [|reflexivity].
    apply is_draggable_handlePointerMove.
  - destruct (onpointerup w) as [id|]; [|reflexivity].
    apply is_draggable_handlePointerUp.
  - destruct (onwheel w) as [id|]; [|reflexivity].
    unfold handleWheel. destruct (String.eqb u id); [|reflexivity].
    destruct (elems w !! id) as [el|] eqn:E; [|reflexivity].
    apply (is_draggable_with_elem w id t _ el E).
  - destruct (oncontextmenu w) as [id|]; [|reflexivity].
    unfold handleRightClick. destruct (String.eqb u id); [|reflexivity].
    destruct (elems w !! id) as [el|] eqn:E; [|reflexivity].
    apply (is_draggable_with_elem w id t _ el E).
Qed.

Lemma run_draggable (host : Host) (evs : list event) (t : string) :
  forall w, is_draggable (run host w evs) t = is_draggable w t.
Proof.
  induction evs as [|ev evs IH]; intros w; [reflexivity|].
  rewrite run_cons, IH. apply step_draggable.
Qed.

Lemma selected_handlePointerMove (id : string) (p : Point) (w : World) :
  selectedElement (handlePointerMove id p w) = selectedElement w.
Proof.
  unfold handlePointerMove, updateStatus.
  destruct (elems w !! id); destruct (statusText w); reflexivity.
Qed.

Lemma selected_handlePointerUp (id : string) (w : World) :
  selectedElement (handlePointerUp id w) = selectedElement w.
Proof.
  unfold handlePointerUp, updateStatus.
  destruct (elems w !! id); cbn [statusText with_elem];
    destruct (statusText w); reflexivity.
Qed.

Lemma step_selected (host : Host) (w : World) (ev : event) :
  selectedElement (step host w ev)
  = select_after (is_draggable w) (selectedElement w) ev.
Proof.
  destruct ev as [key|u touches lay|u touches|u touches|u p lay|p| |u dy|u];
    cbn [step select_after].
  - unfold keydown. destruct (selectedElement w) as [id|] eqn:S; [|exact S].
    destruct (elems w !! id) as [el|]; [|exact S].
    destruct (key_switch key _ _) as [[s r]|]; exact S.
  - unfold touchstart, is_draggable. destruct (elems w !! u) as [el|].
    + destruct touches as [|t1 [|t2 [|t3 rest]]]; reflexivity.
    + destruct touches as [|t1 [|t2 [|t3 rest]]]; reflexivity.
  - unfold touchmove. destruct (elems w !! u) as [el|]; [|reflexivity].
    destruct touches as [|t1 [|t2 [|t3 rest]]]; try reflexivity.
    apply selected_handlePointerMove.
  - unfold touchend. destruct (elems w !! u) as [el|]; [|reflexivity].
    destruct touches as [|t1 [|t2 rest]]; cbn [length Nat.ltb Nat.leb];
      try reflexivity.
    rewrite selected_handlePointerUp. reflexivity.
  - unfold onpointerdown, is_draggable. destruct (elems w !! u) as [el|] eqn:E;
      [|reflexivity].
    cbn [handlePointerDown elems with_selected]. rewrite E. reflexivity.
  - destruct (onpointermove w) as [id|]; [|reflexivity].
    apply selected_handlePointerMove.
  - destruct (onpointerup w) as [id|]; [|reflexivity].
    apply selected_handlePointerUp.
  - destruct (onwheel w) as [id|]; [|reflexivity].
    unfold handleWheel. destruct (String.eqb u id); [|reflexivity].
    destruct (elems w !! id); reflexivity.
  - destruct (oncontextmenu w) as [id|]; [|reflexivity].
    unfold handleRightClick. destruct (String.eqb u id); [|reflexivity].
    destruct (elems w !! id); reflexivity.
Qed.

Lemma select_after_keeps (present : string -> bool) (evs : list event) :
  forall sel,
    (forall id, sel = Some id -> present id = true) ->
    (is_Some sel -> is_Some (fold_left (select_after present) evs sel)) /\
    (forall id, fold_left (select_after present) evs sel = Some id ->
                present id = true).
Proof.
  induction evs as [|ev evs IH]; intros sel Hsel.
  - split; [trivial | exact Hsel].
  - cbn [fold_left].
    assert (Hnext : (forall id, select_after present sel ev = Some id ->
                                present id = true) /\
                    (is_Some sel -> is_Some (select_after present sel ev))).
    { destruct ev as [key|u touches lay|u touches|u touches|u p lay|p| |u dy|u];
        cbn [select_after]; try (split; [exact Hsel | trivial]).
      - destruct touches as [|t1 [|t2 [|t3 rest]]];
          try (split; [exact Hsel | trivial]);
          destruct (present u) eqn:E;
          try (split; [exact Hsel | trivial]);
          (split; [intros id [= <-]; exact E | intros _; eexists; reflexivity]).
      - destruct (present u) eqn:E; [|split; [exact Hsel | trivial]].
        split; [intros id [= <-]; exact E | intros _; eexists; reflexivity]. }
    destruct Hnext as [H1 H2]. destruct (IH _ H1) as [H3 H4].
    split; [intros H; apply H3, H2, H | exact H4].
Qed.

Lemma select_after_ext (p1 p2 : string -> bool) (sel : option string) (ev : event) :
  (forall t, p1 t = p2 t) -> select_after p1 sel ev = select_after p2 sel ev.
Proof.
  intros H.
  destruct ev as [key|u touches lay|u touches|u touches|u p lay|p| |u dy|u];
    cbn [select_after]; try reflexivity.
  - destruct touches as [|t1 [|t2 [|t3 rest]]]; try reflexivity; rewrite H; reflexivity.
  - rewrite H. reflexivity.
Qed.

Lemma run_selected (host : Host) (w : World) (evs : list event) :
  forall w0,
    (forall t, is_draggable w0 t = is_draggable w t) ->
    selectedElement (run host w0 evs)
    = fold_left (select_after (is_draggable w)) evs (selectedElement w0).
Proof.
  induction evs as [|ev evs IH]; intros w0 Hdom; [reflexivity|].
  rewrite run_cons. cbn [fold_left]. rewrite IH.
  - rewrite step_selected, (select_after_ext _ (is_draggable w) _ _ Hdom).
    reflexivity.
  - intros t. rewrite step_draggable. apply Hdom.
Qed.

(** X3: the selection after any sequence of events is the target of the last
    pointer-down or one- or two-touch touch-start on a draggable element; it
    is never cleared, and it is always a draggable element, so the key
    handler always finds the element it is to change. *)
Theorem selection_follows_presses (host : Host) (w : World) (evs : list event) :
  (forall id, selectedElement w = Some id -> is_draggable w id = true) ->
  selectedElement (run host w evs)
    = fold_left (select_after (is_draggable w)) evs (selectedElement w) /\
  (is_Some (selectedElement w) -> is_Some (selectedElement (run host w evs))) /\
  (forall id, selectedElement (run host w evs) = Some id ->
              is_Some (elems (run host w evs) !! id)).
Proof.
  intros Hsel.
  pose proof (run_selected host w evs w (fun t => eq_refl)) as Hrun.
  destruct (select_after_keeps (is_draggable w) evs (selectedElement w) Hsel)
    as [Hkeep Hpres].
  rewrite Hrun. split; [reflexivity|]. split; [exact Hkeep|].
  intros id Hid. specialize (Hpres id Hid).
  rewrite <- (run_draggable host evs id w) in Hpres.
  unfold is_draggable in Hpres.
  destruct (elems (run host w evs) !! id) as [el|]; [eexists; reflexivity|].
  discriminate Hpres.
Qed.

Lemma selection_follows_presses_witness :
  selectedElement
    (run sample_host sample_world
       [Pointerdown "plant1" (pt 1 1) no_layout; Pointerup;
        Touchstart "animal1" [pt 0 0; pt 3 4] no_layout;
        Touchstart "plant1" [pt 0 0; pt 3 4; pt 5 5] no_layout;
        Pointerdown "rock" (pt 1 1) no_layout])
  = Some "animal1".
Proof.
  refine (eq_trans
            (proj1 (selection_follows_presses sample_host sample_world _ _)) _).
  - intros id H. discriminate H.
  - vm_compute. reflexivity.
Defined.

Lemma elems_handlePointerMove_other (id id' : string) (p : Point) (w : World) :
  id <> id' -> elems (handlePointerMove id p w) !! id' = elems w !! id'.
Proof.
  intros Hne. unfold handlePointerMove.
  destruct (elems w !! id); [|reflexivity].
  cbn [elems with_elem]. rewrite lookup_insert_ne by exact Hne.
  rewrite elems_updateStatus. reflexivity.
Qed.

Lemma elems_handlePointerUp_other (id id' : string) (w : World) :
  id <> id' -> elems (handlePointerUp id w) !! id' = elems w !! id'.
Proof.
  intros Hne. unfold handlePointerUp. cbn [elems with_handlers].
  rewrite elems_updateStatus.
  destruct (elems w !! id); [|reflexivity].
  cbn [elems with_elem]. apply lookup_insert_ne. exact Hne.
Qed.

(** X4: one event changes at most one element: every element other than the
    one the event is addressed to is left exactly as it was. *)
Theorem step_frame (host : Host) (w : World) (ev : event) (id' : string) :
  affected w ev <> Some id' ->
  elems (step host w ev) !! id' = elems w !! id'.
Proof.
  destruct ev as [key|u touches lay|u touches|u touches|u p lay|p| |u dy|u];
    cbn [step affected]; intros Hne.
  - unfold keydown. destruct (selectedElement w) as [id|]; [|reflexivity].
    destruct (elems w !! id) as [el|]; [|reflexivity].
    destruct (key_switch key _ _) as [[s r]|]; [|reflexivity].
    apply lookup_insert_ne. congruence.
  - unfold touchstart. destruct (elems w !! u) as [el|]; [|reflexivity].
    destruct touches as [|t1 [|t2 [|t3 rest]]]; try reflexivity.
    apply lookup_insert_ne. congruence.
  - unfold touchmove. destruct (elems w !! u) as [el|]; [|reflexivity].
    destruct touches as [|t1 [|t2 [|t3 rest]]]; try reflexivity.
    + apply elems_handlePointerMove_other. congruence.
    + apply lookup_insert_ne. congruence.
  - unfold touchend. destruct (elems w !! u) as [el|]; [|reflexivity].
    destruct touches as [|t1 [|t2 rest]]; cbn [length Nat.ltb Nat.leb].
    + rewrite elems_handlePointerUp_other by congruence.
      apply lookup_insert_ne. congruence.
    + apply lookup_insert_ne. congruence.
    + reflexivity.
  - unfold onpointerdown. destruct (elems w !! u) as [el|] eqn:E; [|reflexivity].
    cbn [handlePointerDown elems with_selected]. rewrite E.
    apply lookup_insert_ne. congruence.
  - destruct (onpointermove w) as [id|]; [|reflexivity].
    apply elems_handlePointerMove_other. congruence.
  - destruct (onpointerup w) as [id|]; [|reflexivity].
    apply elems_handlePointerUp_other. congruence.
  - destruct (onwheel w) as [id|]; [|reflexivity].
    unfold handleWheel. destruct (String.eqb u id); [|reflexivity].
    destruct (elems w !! id) as [el|]; [|reflexivity].
    apply lookup_insert_ne. congruence.
  - destruct (oncontextmenu w) as [id|]; [|reflexivity].
    unfold handleRightClick. destruct (String.eqb u id); [|reflexivity].
    destruct (elems w !! id) as [el|]; [|reflexivity].
    apply lookup_insert_ne. congruence.
Qed.

Lemma step_frame_witness :
  elems (step sample_host
           (run sample_host sample_world [Pointerdown "plant1" (pt 1 1) no_layout])
           (Wheel "plant1" (-1))) !! "animal1"
  = elems (run sample_host sample_world [Pointerdown "plant1" (pt 1 1) no_layout])
      !! "animal1".
Proof.
  apply (step_frame sample_host
           (run sample_host sample_world [Pointerdown "plant1" (pt 1 1) no_layout])
           (Wheel "plant1" (-1)) "animal1").
  vm_compute. discriminate.
Defined.

Lemma without_status_updateStatus (m : string) (w : World) :
  without_status (updateStatus m w) = without_status w.
Proof. unfold updateStatus. destruct (statusText w); reflexivity. Qed.

Lemma without_status_handlePointerMove (id : string) (p : Point) (w : World) :
  without_status (handlePointerMove id p w)
  = handlePointerMove id p (without_status w).
Proof.
  unfold handlePointerMove. cbn [elems without_status].
  destruct (elems w !! id); [|reflexivity].
  unfold updateStatus. destruct (statusText w); reflexivity.
Qed.

Lemma without_status_handlePointerUp (id : string) (w : World) :
  without_status (handlePointerUp id w) = handlePointerUp id (without_status w).
Proof.
  unfold handlePointerUp. cbn [elems without_status].
  destruct (elems w !! id); unfold updateStatus; cbn [statusText with_elem];
    destruct (statusText w); reflexivity.
Qed.

Lemma without_status_step (host : Host) (w : World) (ev : event) :
  without_status (step host w ev) = step host (without_status w) ev.
Proof.
  destruct ev as [key|u touches lay|u touches|u touches|u p lay|p| |u dy|u];
    cbn [step].
  - unfold keydown. cbn [selectedElement elems without_status].
    destruct (selectedElement w) as [id|]; [|reflexivity].
    destruct (elems w !! id) as [el|]; [|reflexivity].
    destruct (key_switch key _ _) as [[s r]|]; reflexivity.
  - unfold touchstart. cbn [elems without_status].
    destruct (elems w !! u) as [el|]; [|reflexivity].
    destruct touches as [|t1 [|t2 [|t3 rest]]]; reflexivity.
  - unfold touchmove. cbn [elems without_status].
    destruct (elems w !! u) as [el|]; [|reflexivity].
    destruct touches as [|t1 [|t2 [|t3 rest]]]; try reflexivity.
    apply without_status_handlePointerMove.
  - unfold touchend. cbn [elems without_status].
    destruct (elems w !! u) as [el|]; [|reflexivity].
    destruct touches as [|t1 [|t2 rest]]; cbn [length Nat.ltb Nat.leb];
      try reflexivity.
    rewrite without_status_handlePointerUp. reflexivity.
  - unfold onpointerdown. cbn [elems without_status].
    destruct (elems w !! u) as [el|] eqn:E; [|reflexivity].
    cbn [handlePointerDown elems with_selected without_status]. rewrite E.
    reflexivity.
  - cbn [onpointermove without_status].
    destruct (onpointermove w) as [id|]; [|reflexivity].
    apply without_status_handlePointerMove.
  - cbn [onpointerup without_status].
    destruct (onpointerup w) as [id|]; [|reflexivity].
    apply without_status_handlePointerUp.
  - cbn [onwheel without_status].
    destruct (onwheel w) as [id|]; [|reflexivity].
    unfold handleWheel. destruct (String.eqb u id); [|reflexivity].
    cbn [elems without_status]. destruct (elems w !! id); reflexivity.
  - cbn [oncontextmenu without_status].
    destruct (oncontextmenu w) as [id|]; [|reflexivity].
    unfold handleRightClick. destruct (String.eqb u id); [|reflexivity].
    cbn [elems without_status]. destruct (elems w !! id); reflexivity.
Qed.

(** X5: the status region is write-only: on a document without it the status
    stays absent, and the elements, the selection and the installed handlers
    evolve exactly as they do with it, whatever the events. *)
Theorem status_region_is_write_only (host : Host) (w : World) (evs : list event) :
  run host (without_status w) evs = without_status (run host w evs) /\
  statusText (run host (without_status w) evs) = None.
Proof.
  assert (H : forall w0, run host (without_status w0) evs
                         = without_status (run host w0 evs)).
  { induction evs as [|ev evs IH]; intros w0; [reflexivity|].
    rewrite !run_cons, <- IH, without_status_step. reflexivity. }
  split; [apply H|]. rewrite H. reflexivity.
Qed.

Lemma owner_marked_same (w w' : World) :
  elems w' = elems w ->
  onpointermove w' = onpointermove w -> onpointerup w' = onpointerup w ->
  onwheel w' = onwheel w -> oncontextmenu w' = oncontextmenu w ->
  owner_marked w -> owner_marked w'.
Proof.
  intros He H1 H2 H3 H4 Hw id. rewrite He, H1, H2, H3, H4. apply Hw.
Qed.

Lemma owner_marked_with_elem (id : string) (el el' : Elem) (w : World) :
  elems w !! id = Some el ->
  data_dragging el' = data_dragging el ->
  owner_marked w -> owner_marked (with_elem id el' w).
Proof.
  intros Hel Hd Hw o Ho. cbn [elems with_elem].
  destruct (Hw o Ho) as [eo [Heo Hmark]].
  destruct (decide (id = o)) as [->|Hne].
  - rewrite lookup_insert_eq. exists el'. split; [reflexivity|].
    rewrite Hd. congruence.
  - rewrite lookup_insert_ne by exact Hne. exists eo. auto.
Qed.

Lemma owner_marked_clear (w : World) : owner_marked (with_handlers None w).
Proof. intros id [H|[H|[H|H]]]; discriminate H. Qed.

Lemma owner_marked_handlePointerMove (id : string) (p : Point) (w : World) :
  owner_marked w -> owner_marked (handlePointerMove id p w).
Proof.
  intros Hw. unfold handlePointerMove.
  destruct (elems w !! id) as [el|] eqn:E; [|exact Hw].
  apply (owner_marked_with_elem id el).
  - rewrite elems_updateStatus. exact E.
  - reflexivity.
  - revert Hw. apply owner_marked_same;
      unfold updateStatus; destruct (statusText w); reflexivity.
Qed.

Lemma step_owner_marked (host : Host) (w : World) (ev : event) :
  owner_marked w -> owner_marked (step host w ev).
Proof.
  intros Hw.
  destruct ev as [key|u touches lay|u touches|u touches|u p lay|p| |u dy|u];
    cbn [step].
  - unfold keydown. destruct (selectedElement w) as [id|]; [|exact Hw].
    destruct (elems w !! id) as [el|] eqn:E; [|exact Hw].
    destruct (key_switch key _ _) as [[s r]|]; [|exact Hw].
    apply (owner_marked_with_elem id el); [exact E | reflexivity | exact Hw].
  - unfold touchstart. destruct (elems w !! u) as [el|] eqn:E; [|exact Hw].
    destruct touches as [|t1 [|t2 [|t3 rest]]]; try exact Hw.
    apply (owner_marked_with_elem u el); [exact E | reflexivity | exact Hw].
  - unfold touchmove. destruct (elems w !! u) as [el|] eqn:E; [|exact Hw].
    destruct touches as [|t1 [|t2 [|t3 rest]]]; try exact Hw.
    + apply owner_marked_handlePointerMove, Hw.
    + apply (owner_marked_with_elem u el); [exact E | reflexivity | exact Hw].
  - unfold touchend. destruct (elems w !! u) as [el|] eqn:E; [|exact Hw].
    destruct touches as [|t1 [|t2 rest]]; cbn [length Nat.ltb Nat.leb].
    + apply owner_marked_clear.
    + apply (owner_marked_with_elem u el); [exact E | reflexivity | exact Hw].
    + exact Hw.
  - unfold onpointerdown. destruct (elems w !! u) as [el|] eqn:E; [|exact Hw].
    cbn [handlePointerDown elems with_selected]. rewrite E.
    intros o Ho. cbn [onpointermove onpointerup onwheel oncontextmenu
                      with_handlers] in Ho.
    assert (o = u) by (destruct Ho as [H|[H|[H|H]]]; congruence). subst o.
    exists (pressed p lay el). split; [apply lookup_insert_eq | reflexivity].
  - destruct (onpointermove w) as [id|]; [|exact Hw].
    apply owner_marked_handlePointerMove, Hw.
  - destruct (onpointerup w) as [id|]; [|exact Hw].
    apply owner_marked_clear.
  - destruct (onwheel w) as [id|]; [|exact Hw].
    unfold handleWheel. destruct (String.eqb u id); [|exact Hw].
    destruct (elems w !! id) as [el|] eqn:E; [|exact Hw].
    apply (owner_marked_with_elem id el); [exact E | reflexivity | exact Hw].
  - destruct (oncontextmenu w) as [id|]; [|exact Hw].
    unfold handleRightClick. destruct (String.eqb u id); [|exact Hw].
    destruct (elems w !! id) as [el|] eqn:E; [|exact Hw].
    apply (owner_marked_with_elem id el); [exact E | reflexivity | exact Hw].
Qed.

(** X6: starting with no handler installed, after any events the element whose
    handlers are installed on the document carries [data-dragging="true"]:
    a drag in progress is always marked on the element being dragged. *)
Theorem dragged_element_is_marked (host : Host) (w : World) (evs : list event)
    (id : string) :
  slots_clear w ->
  onwheel (run host w evs) = Some id ->
  exists el,
    elems (run host w evs) !! id = Some el /\ data_dragging el = Some "true".
Proof.
  intros [H1 [H2 [H3 H4]]] Hid.
  assert (Hw : owner_marked w).
  { intros o [H|[H|[H|H]]]; congruence. }
  assert (Hrun : forall evs0 w0, owner_marked w0 -> owner_marked (run host w0 evs0)).
  { induction evs0 as [|ev evs0 IH]; intros w0 H0; [exact H0|].
    rewrite run_cons. apply IH, step_owner_marked, H0. }
  apply (Hrun evs w Hw id). right. right. left. exact Hid.
Qed.

Lemma dragged_element_is_marked_witness :
  exists el,
    elems (run sample_host sample_world
             [Pointerdown "plant1" (pt 1 1) no_layout; Pointermove (pt 2 2)])
      !! "plant1" = Some el /\ data_dragging el = Some "true".
Proof.
  apply (dragged_element_is_marked sample_host sample_world
           [Pointerdown "plant1" (pt 1 1) no_layout; Pointermove (pt 2 2)] "plant1").
  - repeat split.
  - vm_compute. reflexivity.
Defined.

(** The mark can outlive the drag: with two presses before a release, the
    release clears the mark of the element pressed last only. *)
Example stale_drag_mark :
  exists el1 el2,
    let w :=
      run sample_host sample_world
        [Pointerdown "plant1" (pt 1 1) no_layout;
         Pointerdown "animal1" (pt 2 2) no_layout; Pointerup] in
    slots_clear w /\
    elems w !! "plant1" = Some el1 /\ data_dragging el1 = Some "true" /\
    elems w !! "animal1" = Some el2 /\ data_dragging el2 = None.
Proof.
  eexists _, _. cbv zeta. split; [vm_compute; repeat split|].
  split; [vm_compute; reflexivity|]. split; [reflexivity|].
  split; [vm_compute; reflexivity|]. reflexivity.
Qed.

(** ** Whole numbers of degrees and of pixels *)

Lemma Qred_inject_Z (z : Z) : Qred (inject_Z z) = inject_Z z.
Proof.
  unfold Qred, inject_Z.
  pose proof (Z.ggcd_gcd z 1) as Hg.
  pose proof (Z.ggcd_correct_divisors z 1) as Hd.
  destruct (Z.ggcd z 1) as [g [aa bb]]. cbn [fst snd] in *.
  rewrite Z.gcd_1_r in Hg. subst g. destruct Hd as [Ha Hb].
  assert (Hz : z = aa) by lia. assert (Hb1 : bb = 1) by lia.
  rewrite Hb1, Hz. reflexivity.
Qed.

Lemma fin_eq (p q : Q) : (p == q)%Q -> fin p = fin q.
Proof. intros H. unfold fin. f_equal. apply Qred_complete, H. Qed.

Lemma inject_Z_minus (x y : Z) : inject_Z (x - y) = (inject_Z x - inject_Z y)%Q.
Proof. unfold Z.sub. rewrite inject_Z_plus, inject_Z_opp. reflexivity. Qed.

Lemma fin_whole (z : Z) : fin (inject_Z z) = whole z.
Proof. unfold fin, whole. rewrite Qred_inject_Z. reflexivity. Qed.

Lemma whole_sub (a b : Z) : num_sub (whole a) (whole b) = whole (a - b).
Proof.
  rewrite <- (fin_whole (a - b)). unfold whole, num_sub. apply fin_eq.
  rewrite inject_Z_minus. reflexivity.
Qed.

Lemma whole_add (a b : Z) : num_add (whole a) (whole b) = whole (a + b).
Proof.
  rewrite <- (fin_whole (a + b)). unfold whole, num_add. apply fin_eq.
  rewrite inject_Z_plus. reflexivity.
Qed.

Lemma whole_rem_360 (a : Z) :
  0 <= a -> num_rem (whole a) (Fin 360) = whole (a mod 360).
Proof.
  intros Ha. rewrite <- (fin_whole (a mod 360)).
  unfold whole, num_rem. change (Qzero_b 360) with false. cbv iota.
  assert (Ht : Qtrunc (inject_Z a / 360) = a / 360).
  { unfold Qtrunc, Qneg_b, Qfloor. cbn. rewrite Z.mul_1_r.
    replace (a <? 0) with false by (symmetry; apply Z.ltb_ge; exact Ha).
    reflexivity. }
  rewrite Ht. apply fin_eq.
  rewrite (Z.mod_eq a 360) by discriminate.
  rewrite inject_Z_minus, inject_Z_mult. reflexivity.
Qed.

(** ** Right-clicks add up *)

Lemma turned_whole (el : Elem) (k : Z) :
  rotation (vars el) = whole k -> 0 <= k ->
  rotation (vars (turned el)) = whole ((k + 15) mod 360) /\
  scale (vars (turned el)) = scale (vars el) /\
  style_transform (style (turned el))
  = full_transform (scale (vars el)) (whole ((k + 15) mod 360)).
Proof.
  intros Hr Hk. unfold turned.
  assert (H : num_rem (num_add (rotation (vars el)) (Fin 15)) (Fin 360)
              = whole ((k + 15) mod 360)).
  { rewrite Hr. change (Fin 15) with (whole 15).
    rewrite whole_add. apply whole_rem_360. lia. }
  rewrite H. repeat split.
Qed.

Lemma right_clicks_run (host : Host) (n : nat) :
  forall (w : World) (id : string) (el : Elem) (k : Z),
    oncontextmenu w = Some id ->
    elems w !! id = Some el ->
    rotation (vars el) = whole k ->
    0 <= k < 360 ->
    exists el',
      elems (run host w (repeat (Contextmenu id) n)) !! id = Some el' /\
      rotation (vars el') = whole ((k + 15 * Z.of_nat n) mod 360) /\
      scale (vars el') = scale (vars el) /\
      (n <> O ->
       style_transform (style el')
       = full_transform (scale (vars el)) (whole ((k + 15 * Z.of_nat n) mod 360))).
Proof.
  induction n as [|n IH]; intros w id el k Hslot Hel Hr Hk.
  - exists el. cbn [repeat]. rewrite run_nil.
    rewrite Z.mul_0_r, Z.add_0_r, Z.mod_small by exact Hk.
    split; [exact Hel|]. split; [exact Hr|]. split; [reflexivity|].
    intros H. contradiction.
  - cbn [repeat]. rewrite run_cons.
    assert (Hstep : step host w (Contextmenu id) = with_elem id (turned el) w).
    { cbn [step]. rewrite Hslot. unfold handleRightClick.
      rewrite String.eqb_refl, Hel. reflexivity. }
    rewrite Hstep.
    destruct (turned_whole el k Hr ltac:(lia)) as [Hr1 [Hs1 Ht1]].
    assert (Hk1 : 0 <= (k + 15) mod 360 < 360) by (apply Z.mod_pos_bound; lia).
    destruct (IH (with_elem id (turned el) w) id (turned el) _ Hslot
                (lookup_insert_eq _ _ _) Hr1 Hk1)
      as [el' [Hel' [Hr' [Hs' Ht']]]].
    assert (Hmod : ((k + 15) mod 360 + 15 * Z.of_nat n) mod 360
                   = (k + 15 * Z.of_nat (S n)) mod 360).
    { rewrite Z.add_mod_idemp_l by discriminate. f_equal. lia. }
    rewrite Hmod in Hr', Ht'.
    exists el'. split; [exact Hel'|]. split; [exact Hr'|].
    split; [rewrite Hs'; exact Hs1|].
    intros _. destruct n as [|n].
    + cbn [repeat] in Hel'. rewrite run_nil in Hel'. cbn [elems with_elem] in Hel'.
      rewrite lookup_insert_eq in Hel'.
      injection Hel' as <-. rewrite Ht1. reflexivity.
    + rewrite Ht', Hs1 by discriminate. reflexivity.
Qed.

(** X7: while element [id] is being dragged, [n] right-clicks on it take a
    rotation of [k] whole degrees to [(k + 15 n) mod 360], wrapping past
    360, and leave the scale alone, whatever it is; when the scale is a
    whole number from 1 to 3, the transform assigned by the last click is
    the translate, that scale and that rotation, in this order. *)
Theorem right_clicks_add_up (host : Host) (n : nat) (w : World) (id : string)
    (el : Elem) (k : Z) :
  oncontextmenu w = Some id ->
  elems w !! id = Some el ->
  rotation (vars el) = whole k ->
  0 <= k < 360 ->
  exists el',
    elems (run host w (repeat (Contextmenu id) n)) !! id = Some el' /\
    rotation (vars el') = whole ((k + 15 * Z.of_nat n) mod 360) /\
    scale (vars el') = scale (vars el) /\
    (forall a,
       n <> O -> scale (vars el) = whole a -> 1 <= a <= 3 ->
       style_transform (style el')
       = "translate(-50%, -50%) scale(" +:+ toString (whole a) +:+ ") rotate(" +:+
         toString (whole ((k + 15 * Z.of_nat n) mod 360)) +:+ "deg)").
Proof.
  intros Hslot Hel Hr Hk.
  destruct (right_clicks_run host n w id el k Hslot Hel Hr Hk)
    as [el' [Hel' [Hr' [Hs' Ht']]]].
  exists el'. split; [exact Hel'|]. split; [exact Hr'|]. split; [exact Hs'|].
  intros a Hn Ha _. rewrite (Ht' Hn), Ha. reflexivity.
Qed.

Lemma right_clicks_add_up_witness :
  exists el',
    elems (run sample_host
             (run sample_host sample_world
                [Pointerdown "plant1" (pt 1 1) no_layout])
             (repeat (Contextmenu "plant1") 25)) !! "plant1" = Some el' /\
    rotation (vars el') = whole ((0 + 15 * Z.of_nat 25) mod 360) /\
    scale (vars el') = scale (vars (pressed (pt 1 1) no_layout (init_elem no_style))) /\
    (forall a,
       25%nat <> O ->
       scale (vars (pressed (pt 1 1) no_layout (init_elem no_style))) = whole a ->
       1 <= a <= 3 ->
       style_transform (style el')
       = "translate(-50%, -50%) scale(" +:+ toString (whole a) +:+ ") rotate(" +:+
         toString (whole ((0 + 15 * Z.of_nat 25) mod 360)) +:+ "deg)").
Proof.
  apply (right_clicks_add_up sample_host 25
           (run sample_host sample_world [Pointerdown "plant1" (pt 1 1) no_layout])
           "plant1" (pressed (pt 1 1) no_layout (init_elem no_style)) 0).
  - reflexivity.
  - vm_compute. reflexivity.
  - reflexivity.
  - lia.
Defined.

(** The 25 right-clicks of the sample page: 375 degrees wrap to 15. *)
Example right_clicks_run_sample :
  exists el',
    elems (run sample_host
             (run sample_host sample_world
                [Pointerdown "plant1" (pt 1 1) no_layout])
             (repeat (Contextmenu "plant1") 25)) !! "plant1" = Some el' /\
    rotation (vars el') = Fin 15 /\
    style_transform (style el') = "translate(-50%, -50%) scale(1) rotate(15deg)".
Proof. eexists. split; [vm_compute; reflexivity|]. split; reflexivity. Qed.

(** ** The wheel moves the scale one step in the direction of the scroll *)

Lemma Qle_bool_false (x y : Q) : Qle_bool x y = false -> (y < x)%Q.
Proof.
  intros H. destruct (Qlt_le_dec y x) as [Hlt|Hle]; [exact Hlt|].
  apply Qle_bool_iff in Hle. congruence.
Qed.

Lemma num_gt_zero (dy : Q) :
  num_gt (fin dy) (Fin 0) = true <-> (0 < dy)%Q.
Proof.
  unfold num_gt, fin, num_le_b. rewrite negb_true_iff.
  pose proof (Qred_correct dy) as Hd.
  destruct (Qle_bool (Qred dy) 0) eqn:E.
  - apply Qle_bool_iff in E. split; [discriminate | lra].
  - split; [intros _ | reflexivity].
    destruct (Qlt_le_dec 0 dy) as [Hlt|Hle]; [exact Hlt|].
    assert (H : Qle_bool (Qred dy) 0 = true) by (apply Qle_bool_iff; lra).
    congruence.
Qed.

(** X8: while element [id] is being dragged with a scale within [0.3, 3.0], a
    wheel event on it stores a scale again within [0.3, 3.0], moved in the
    direction of the scroll by less than 0.1: not above the old one when
    [deltaY] is positive and strictly below it unless it was 0.3 already,
    not below the old one otherwise and strictly above it unless it was 3
    already, so that a [deltaY] of 0 zooms in. The rotation is left alone.
    The bound 0.1 leaves room for the rounding of the step of 0.05. *)
Theorem wheel_steps (host : Host) (w : World) (id : string) (el : Elem)
    (dy s : Q) :
  onwheel w = Some id ->
  elems w !! id = Some el ->
  scale (vars el) = Fin s -> (3 # 10 <= s)%Q -> (s <= 3)%Q ->
  exists el' s',
    elems (step host w (Wheel id dy)) !! id = Some el' /\
    scale (vars el') = Fin s' /\
    (3 # 10 <= s')%Q /\ (s' <= 3)%Q /\
    ((0 < dy)%Q ->
     (s' <= s)%Q /\ (s - (1 # 10) < s')%Q /\ ((3 # 10 < s)%Q -> (s' < s)%Q)) /\
    ((dy <= 0)%Q ->
     (s <= s')%Q /\ (s' < s + (1 # 10))%Q /\ ((s < 3)%Q -> (s < s')%Q)) /\
    rotation (vars el') = rotation (vars el).
Proof.
  intros Hslot Hel Hs Hlo Hhi.
  assert (Hstep : step host w (Wheel id dy) = with_elem id (wheeled dy el) w).
  { cbn [step]. rewrite Hslot. unfold handleWheel.
    rewrite String.eqb_refl, Hel. reflexivity. }
  rewrite Hstep. exists (wheeled dy el).
  unfold wheeled. rewrite Hs.
  destruct (num_gt (fin dy) (Fin 0)) eqn:G.
  - apply num_gt_zero in G.
    unfold num_add, fin. rewrite clamp_scale_fin.
    pose proof (Qred_correct (s + (-1 # 20))) as Hq.
    pose proof (clamp_to_range (3 # 10) 3 (Qred (s + (-1 # 20))) ltac:(lra))
      as [Hc1 Hc2].
    eexists. split; [apply lookup_insert_eq|]. split; [reflexivity|].
    split; [exact Hc1|]. split; [exact Hc2|].
    split; [|split; [intros Hle; lra | reflexivity]].
    intros _. unfold clamp_to in *.
    destruct (Qle_bool 3 (Qred (s + (-1 # 20)))) eqn:E1.
    + apply Qle_bool_iff in E1. lra.
    + destruct (Qle_bool (3 # 10) (Qred (s + (-1 # 20)))) eqn:E2.
      * split; [lra | split; [lra | intros ?; lra]].
      * apply Qle_bool_false in E2. split; [lra | split; [lra | intros ?; lra]].
  - assert (Hdy : (dy <= 0)%Q).
    { destruct (Qlt_le_dec 0 dy) as [Hlt|Hle]; [|exact Hle].
      apply num_gt_zero in Hlt. congruence. }
    unfold num_add, fin. rewrite clamp_scale_fin.
    pose proof (Qred_correct (s + (1 # 20))) as Hq.
    pose proof (clamp_to_range (3 # 10) 3 (Qred (s + (1 # 20))) ltac:(lra))
      as [Hc1 Hc2].
    eexists. split; [apply lookup_insert_eq|]. split; [reflexivity|].
    split; [exact Hc1|]. split; [exact Hc2|].
    split; [intros Hgt; lra|]. split; [|reflexivity].
    intros _. unfold clamp_to in *.
    destruct (Qle_bool 3 (Qred (s + (1 # 20)))) eqn:E1.
    + apply Qle_bool_iff in E1. split; [lra | split; [lra | intros ?; lra]].
    + apply Qle_bool_false in E1.
      destruct (Qle_bool (3 # 10) (Qred (s + (1 # 20)))) eqn:E2.
      * split; [lra | split; [lra | intros ?; lra]].
      * apply Qle_bool_false in E2. lra.
Qed.

Lemma wheel_steps_witness :
  exists el' s',
    elems (step sample_host
             (run sample_host sample_world [Pointerdown "plant1" (pt 1 1) no_layout])
             (Wheel "plant1" 0)) !! "plant1" = Some el' /\
    scale (vars el') = Fin s' /\
    (3 # 10 <= s')%Q /\ (s' <= 3)%Q /\
    ((0 < 0)%Q ->
     (s' <= 1)%Q /\ (1 - (1 # 10) < s')%Q /\ ((3 # 10 < 1)%Q -> (s' < 1)%Q)) /\
    ((0 <= 0)%Q ->
     (1 <= s')%Q /\ (s' < 1 + (1 # 10))%Q /\ ((1 < 3)%Q -> (1 < s')%Q)) /\
    rotation (vars el')
    = rotation (vars (pressed (pt 1 1) no_layout (init_elem no_style))).
Proof.
  apply (wheel_steps sample_host
           (run sample_host sample_world [Pointerdown "plant1" (pt 1 1) no_layout])
           "plant1" (pressed (pt 1 1) no_layout (init_elem no_style)) 0 1).
  - reflexivity.
  - vm_compute. reflexivity.
  - reflexivity.
  - lra.
  - lra.
Defined.

(** ** A pinch that does not move the fingers *)

Lemma clamp_scale_in_range (x : Q) :
  (3 # 10 <= x)%Q -> (x <= 3)%Q -> clamp_scale (fin x) = fin x.
Proof.
  intros Hlo Hhi. unfold fin. rewrite clamp_scale_fin. f_equal. unfold clamp_to.
  pose proof (Qred_correct x) as Hx.
  destruct (Qle_bool 3 (Qred x)) eqn:E1.
  - apply Qle_bool_iff in E1.
    assert (H3 : (x == 3)%Q) by lra.
    rewrite (Qred_complete x 3 H3). reflexivity.
  - assert (E2 : Qle_bool (3 # 10) (Qred x) = true) by (apply Qle_bool_iff; lra).
    rewrite E2. reflexivity.
Qed.

(** X10: a two-finger gesture whose move reports the touches of its start, a
    positive finite distance apart, leaves the scale (within [0.3, 3.0])
    and a rotation of whole degrees exactly as they were. *)
Theorem pinch_without_movement (host : Host) (w : World) (id : string)
    (el : Elem) (lay : Layout) (t1 t2 : Point) (s d a : Q) (k : Z) :
  elems w !! id = Some el ->
  scale (vars el) = fin s -> (3 # 10 <= s)%Q -> (s <= 3)%Q ->
  rotation (vars el) = whole k -> 0 <= k < 360 ->
  getDistance host t1 t2 = Fin d -> (0 < d)%Q ->
  getAngle host t1 t2 = Fin a ->
  exists el',
    elems (run host w [Touchstart id [t1; t2] lay; Touchmove id [t1; t2]]) !! id
      = Some el' /\
    scale (vars el') = scale (vars el) /\
    rotation (vars el') = rotation (vars el) /\
    style_transform (style el')
    = full_transform (scale (vars el)) (rotation (vars el)).
Proof.
  intros Hel Hs Hlo Hhi Hr Hk Hd Hdpos Ha.
  rewrite run_cons, (step_touchstart_two host w id el) by exact Hel.
  rewrite run_cons, run_nil.
  rewrite (step_touchmove_two host _ id (gesture_started host t1 t2 el))
    by apply lookup_insert_eq.
  exists (pinch host t1 t2 (gesture_started host t1 t2 el)).
  split; [apply lookup_insert_eq|].
  assert (Hscale : scale (vars (pinch host t1 t2 (gesture_started host t1 t2 el)))
                   = scale (vars el)).
  { rewrite pinch_scale. unfold gesture_started.
    cbn [vars with_closure with_gesture initialScale touchStartDistance].
    rewrite Hd, Hs. unfold num_div. rewrite (Qzero_b_false d) by lra.
    assert (Hm : num_mul (fin s) (fin (d / d)) = fin s).
    { unfold num_mul, fin at 1 2. apply fin_eq. rewrite !Qred_correct.
      field. lra. }
    rewrite Hm. apply clamp_scale_in_range; assumption. }
  assert (Hrot : rotation (vars (pinch host t1 t2 (gesture_started host t1 t2 el)))
                 = rotation (vars el)).
  { rewrite pinch_rotation. unfold gesture_started.
    cbn [vars with_closure with_gesture initialRotation touchStartAngle].
    rewrite Ha, Hr.
    assert (H0 : num_sub (Fin a) (Fin a) = whole 0).
    { unfold num_sub. rewrite <- (fin_whole 0). apply fin_eq.
      change (inject_Z 0) with 0%Q. ring. }
    rewrite H0, whole_add. change (Fin 360) with (whole 360).
    rewrite whole_add, whole_rem_360 by lia. f_equal.
    rewrite Z.add_0_r, <- (Z.mul_1_l 360) at 1.
    rewrite Z.mod_add by discriminate. apply Z.mod_small. exact Hk. }
  split; [exact Hscale|]. split; [exact Hrot|].
  rewrite <- Hscale, <- Hrot. reflexivity.
Qed.

Lemma pinch_without_movement_witness :
  exists el',
    elems (run sample_host sample_world
             [Touchstart "plant1" [pt 0 0; pt 3 4] no_layout;
              Touchmove "plant1" [pt 0 0; pt 3 4]]) !! "plant1" = Some el' /\
    scale (vars el') = scale (vars (init_elem no_style)) /\
    rotation (vars el') = rotation (vars (init_elem no_style)) /\
    style_transform (style el')
    = full_transform (scale (vars (init_elem no_style)))
        (rotation (vars (init_elem no_style))).
Proof.
  apply (pinch_without_movement sample_host sample_world "plant1"
           (init_elem no_style) no_layout (pt 0 0) (pt 3 4) 1 5 45 0).
  - vm_compute. reflexivity.
  - reflexivity.
  - lra.
  - lra.
  - reflexivity.
  - lia.
  - vm_compute. reflexivity.
  - lra.
  - vm_compute. reflexivity.
Defined.

(** ** Dragging by whole pixels *)

Lemma pos_string_whole (n : Z) :
  0 < n < 10 ^ 21 -> pos_string (inject_Z n) = int_string n.
Proof.
  intros Hn. unfold pos_string.
  destruct (Qle_bool (Qpow10 21) (inject_Z n)) eqn:E1.
  { apply Qle_bool_iff in E1. unfold Qpow10 in E1. rewrite <- Zle_Qle in E1. lia. }
  assert (E2 : Qle_bool (1 # 1000000) (inject_Z n) = true).
  { apply Qle_bool_iff. unfold Qle. cbn. lia. }
  rewrite E2. unfold plain_string. cbn [Qnum Qden inject_Z].
  rewrite Z.div_1_r, Z.mod_1_r. cbn [Z.eqb]. apply append_empty_r.
Qed.

Lemma toString_whole (z : Z) :
  - 10 ^ 21 < z < 10 ^ 21 ->
  toString (whole z)
  = if z =? 0 then "0"
    else if z <? 0 then "-" +:+ int_string (- z) else int_string z.
Proof.
  intros Hz. unfold toString, whole.
  change (Qzero_b (inject_Z z)) with (z =? 0).
  change (Qneg_b (inject_Z z)) with (z <? 0).
  destruct (z =? 0) eqn:E0; [reflexivity|]. apply Z.eqb_neq in E0.
  destruct (z <? 0) eqn:E1.
  - apply Z.ltb_lt in E1.
    change (- inject_Z z)%Q with (inject_Z (- z)).
    rewrite Qred_inject_Z, pos_string_whole by lia. reflexivity.
  - apply Z.ltb_ge in E1. apply pos_string_whole. lia.
Qed.

Lemma parseFloat_digits_px (neg : bool) (n : Z) (s : string) :
  0 <= n ->
  read_sign (skip_spaces s) = (neg, int_string n +:+ "px") ->
  parseFloat s = whole (if neg then - n else n).
Proof.
  intros Hn Hs. destruct (int_string_spec n Hn) as [Hall [Hne Hval]].
  unfold parseFloat. rewrite Hs.
  assert (Hinf : String.prefix "Infinity" (int_string n +:+ "px") = false).
  { destruct (int_string n) as [|c D]; [contradiction|].
    cbn [all_chars] in Hall. apply andb_true_iff in Hall as [Hc _].
    rewrite append_cons. apply digit_not_Infinity. exact Hc. }
  rewrite Hinf, (read_digits_spec (int_string n) "px" Hall eq_refl), Hval.
  destruct (int_string n) as [|c D]; [contradiction|].
  cbn [String.length Nat.add]. change (read_exponent "px") with 0.
  rewrite <- fin_whole. apply fin_eq.
  unfold Qscale10. cbn [Z.ltb Z.compare]. change (Qpow10 0) with 1%Q.
  change (Qpow10 (Z.of_nat 0)) with 1%Q. change (inject_Z 0) with 0%Q.
  destruct neg; [rewrite inject_Z_opp|]; field.
Qed.

Lemma parseFloat_whole_px (z : Z) :
  - 10 ^ 21 < z < 10 ^ 21 -> parseFloat (px (whole z)) = whole z.
Proof.
  intros Hz. unfold px. rewrite (toString_whole z Hz).
  destruct (z =? 0) eqn:E0.
  - apply Z.eqb_eq in E0. subst z. reflexivity.
  - apply Z.eqb_neq in E0. destruct (z <? 0) eqn:E1.
    + apply Z.ltb_lt in E1.
      rewrite (parseFloat_digits_px true (- z)); [|lia|].
      * rewrite Z.opp_involutive. reflexivity.
      * rewrite append_assoc. reflexivity.
    + apply Z.ltb_ge in E1.
      apply (parseFloat_digits_px false z); [lia|].
      destruct (int_string_spec z ltac:(lia)) as [Hall [Hne _]].
      destruct (int_string z) as [|c D]; [contradiction|].
      cbn [all_chars] in Hall. apply andb_true_iff in Hall as [Hc _].
      rewrite append_cons. cbn [skip_spaces].
      rewrite (digit_not_space c Hc). apply digit_no_sign. exact Hc.
Qed.

Lemma px_whole_tracked (z : Z) :
  - 10 ^ 21 < z < 10 ^ 21 ->
  is_empty_string (px (whole z)) || String.eqb (px (whole z)) "auto" = false.
Proof.
  intros Hz. unfold px. rewrite (toString_whole z Hz).
  destruct (z =? 0) eqn:E0; [reflexivity|]. apply Z.eqb_neq in E0.
  destruct (z <? 0) eqn:E1; [reflexivity|]. apply Z.ltb_ge in E1.
  destruct (int_string_spec z E1) as [Hall [Hne _]].
  destruct (int_string z) as [|c D]; [contradiction|].
  cbn [all_chars] in Hall. apply andb_true_iff in Hall as [Hc _].
  rewrite append_cons. cbn [is_empty_string orb String.eqb].
  destruct (Ascii.eqb_spec c "a") as [->|]; [discriminate Hc | reflexivity].
Qed.

Lemma num_or_whole (z : Z) : num_or (whole z) (Fin 0) = whole z.
Proof.
  unfold num_or, whole. change (Qzero_b (inject_Z z)) with (z =? 0).
  destruct (z =? 0) eqn:E; [|reflexivity].
  apply Z.eqb_eq in E. subst z. reflexivity.
Qed.

Lemma pressed_stands_at (T L x y : Z) (lay : Layout) (el : Elem) :
  - 10 ^ 21 < T < 10 ^ 21 ->
  style_top (style el) = px (whole T) ->
  style_left (style el) = px (whole L) ->
  stands_at T L x y (pressed (pt x y) lay el).
Proof.
  intros HT Ht Hl. unfold stands_at, pressed, track_position.
  rewrite Ht, (px_whole_tracked T HT).
  cbn [style vars with_current currentX currentY pt clientX clientY].
  rewrite !fin_whole. auto.
Qed.

Lemma moved_stands_at (T L X Y x y : Z) (el : Elem) :
  - 10 ^ 21 < T < 10 ^ 21 -> - 10 ^ 21 < L < 10 ^ 21 ->
  stands_at T L X Y el ->
  stands_at (T + (y - Y)) (L + (x - X)) x y (moved (pt x y) el).
Proof.
  intros HT HL (Ht & Hl & Hx & Hy).
  unfold stands_at, moved, position_top, position_left.
  cbn [style vars with_top_left style_top style_left with_current currentX
       currentY pt clientX clientY].
  rewrite Ht, Hl, Hx, Hy, !fin_whole, !parseFloat_whole_px, !num_or_whole,
    !whole_sub by assumption.
  replace (T - (Y - y)) with (T + (y - Y)) by ring.
  replace (L - (X - x)) with (L + (x - X)) by ring.
  auto.
Qed.

Lemma last_cons_default (m : Z * Z) (ms : list (Z * Z)) (d d' : Z * Z) :
  List.last (m :: ms) d = List.last (m :: ms) d'.
Proof.
  revert m. induction ms as [|a l IHl]; intros m; [reflexivity|].
  change (List.last (m :: a :: l) d) with (List.last (a :: l) d).
  change (List.last (m :: a :: l) d') with (List.last (a :: l) d'). apply IHl.
Qed.

Lemma run_whole_moves (host : Host) (id : string) (T0 L0 x0 y0 : Z) :
  small T0 -> small L0 -> small x0 -> small y0 ->
  forall (moves : list (Z * Z)) (w : World) (el : Elem) (X Y : Z),
    Forall small_pair moves ->
    small X -> small Y ->
    onpointermove w = Some id ->
    elems w !! id = Some el ->
    stands_at (T0 + (Y - y0)) (L0 + (X - x0)) X Y el ->
    exists el',
      elems (run host w (map whole_move moves)) !! id = Some el' /\
      stands_at (T0 + (snd (List.last moves (X, Y)) - y0))
                (L0 + (fst (List.last moves (X, Y)) - x0))
                (fst (List.last moves (X, Y))) (snd (List.last moves (X, Y))) el'.
Proof.
  intros HT0 HL0 Hx0 Hy0. unfold small in *.
  induction moves as [|[x y] moves IH]; intros w el X Y Hall HX HY Hmove Hel Hst.
  - exists el. split; [exact Hel | exact Hst].
  - inversion Hall as [|m ms [Hx Hy] Hrest]; subst. cbn [fst snd] in Hx, Hy.
    unfold small in Hx, Hy.
    cbn [map]. rewrite run_cons. unfold whole_move at 1. cbn [fst snd].
    rewrite (step_pointermove host w id el) by assumption.
    assert (Hst' : stands_at (T0 + (y - y0)) (L0 + (x - x0)) x y (moved (pt x y) el)).
    { pose proof (moved_stands_at (T0 + (Y - y0)) (L0 + (X - x0)) X Y x y el
                    ltac:(lia) ltac:(lia) Hst) as H.
      replace (T0 + (Y - y0) + (y - Y)) with (T0 + (y - y0)) in H by ring.
      replace (L0 + (X - x0) + (x - X)) with (L0 + (x - x0)) in H by ring.
      exact H. }
    destruct (IH (with_elem id (moved (pt x y) el)
                    (updateStatus (drag_message id (fin (clientX (pt x y)))
                                     (fin (clientY (pt x y)))) w))
                 (moved (pt x y) el) x y Hrest Hx Hy) as [el' [Hel' Hend]].
    + cbn [onpointermove with_elem]. unfold updateStatus.
      destruct (statusText w); exact Hmove.
    + apply lookup_insert_eq.
    + exact Hst'.
    + exists el'. split; [exact Hel'|].
      destruct moves as [|m' ms']; [exact Hend|].
      change (List.last ((x, y) :: m' :: ms') (X, Y)) with (List.last (m' :: ms') (X, Y)).
      rewrite (last_cons_default m' ms' (X, Y) (x, y)). exact Hend.
Qed.

(** X11: an element that stands at a whole pixel position is pressed at a
    whole pointer position and dragged through whole pointer positions,
    all at most [10^5] in absolute value, so that every position on the
    way is a whole number of at most six digits: its [top] and [left] are
    the start position plus the net pointer movement, and a drag that ends
    where it began restores both strings. *)
Theorem drag_whole_pixels (host : Host) (w : World) (id : string) (el : Elem)
    (lay : Layout) (T L x0 y0 : Z) (moves : list (Z * Z)) :
  elems w !! id = Some el ->
  style_top (style el) = px (whole T) ->
  style_left (style el) = px (whole L) ->
  small T -> small L -> small x0 -> small y0 ->
  Forall small_pair moves ->
  exists el',
    elems (run host w (Pointerdown id (pt x0 y0) lay :: map whole_move moves)) !! id
      = Some el' /\
    style_top (style el')
      = px (whole (T + (snd (List.last moves (x0, y0)) - y0))) /\
    style_left (style el')
      = px (whole (L + (fst (List.last moves (x0, y0)) - x0))) /\
    (List.last moves (x0, y0) = (x0, y0) ->
     style_top (style el') = style_top (style el) /\
     style_left (style el') = style_left (style el)).
Proof.
  intros Hel Ht Hl HT HL Hx0 Hy0 Hall.
  rewrite run_cons, (step_pointerdown host w id el) by exact Hel.
  destruct (run_whole_moves host id T L x0 y0 HT HL Hx0 Hy0 moves
              (with_handlers (Some id)
                 (with_elem id (pressed (pt x0 y0) lay el) (with_selected id w)))
              (pressed (pt x0 y0) lay el) x0 y0 Hall Hx0 Hy0)
    as [el' [Hel' (Ht' & Hl' & _)]].
  - reflexivity.
  - apply lookup_insert_eq.
  - rewrite !Z.sub_diag, !Z.add_0_r. unfold small in HT.
    apply pressed_stands_at; [lia | exact Ht | exact Hl].
  - exists el'. split; [exact Hel'|]. split; [exact Ht'|]. split; [exact Hl'|].
    intros Hlast. rewrite Ht', Hl', Hlast. cbn [fst snd].
    rewrite !Z.sub_diag, !Z.add_0_r, Ht, Hl. auto.
Qed.

(** ** The drag scenario on an element placed in whole pixels (C3) *)

(** C3, amended: the element [plant1] stands at a whole pixel position,
    [left] at [L]px and [top] at [T]px, of at most five digits each. The
    pointer-down at (100,100) leaves it there; after the pointer-move to
    (80,130) its [left] is [L - 20]px and its [top] is [T + 30]px (the
    element follows the pointer, 20 to the left and 30 down), and the status
    text reads [Dragging plant1 | X:80, Y:130]. *)
Theorem drag_scenario (host : Host) (w : World) (el : Elem) (lay : Layout)
    (msg : string) (T L : Z) :
  elems w !! "plant1" = Some el ->
  statusText w = Some msg ->
  style_top (style el) = toString (Fin (inject_Z T)) +:+ "px" ->
  style_left (style el) = toString (Fin (inject_Z L)) +:+ "px" ->
  - 10 ^ 5 <= T <= 10 ^ 5 ->
  - 10 ^ 5 <= L <= 10 ^ 5 ->
  let w1 := step host w (Pointerdown "plant1" (pt 100 100) lay) in
  let w2 := step host w1 (Pointermove (pt 80 130)) in
  exists el1 el2,
    elems w1 !! "plant1" = Some el1 /\
    style_left (style el1) = style_left (style el) /\
    style_top (style el1) = style_top (style el) /\
    elems w2 !! "plant1" = Some el2 /\
    style_left (style el2) = toString (Fin (inject_Z (L - 20))) +:+ "px" /\
    style_top (style el2) = toString (Fin (inject_Z (T + 30))) +:+ "px" /\
    statusText w2 = Some "Dragging plant1 | X:80, Y:130".
Proof.
  intros Hel Hst Ht Hl HT HL w1 w2. subst w1 w2.
  rewrite (step_pointerdown host w "plant1" el) by exact Hel.
  set (w1 := with_handlers _ _).
  assert (H1 : elems w1 !! "plant1" = Some (pressed (pt 100 100) lay el))
    by apply lookup_insert_eq.
  rewrite (step_pointermove host w1 "plant1" _ (pt 80 130) eq_refl H1).
  pose proof (pressed_stands_at T L 100 100 lay el ltac:(lia) Ht Hl) as Hp.
  pose proof (moved_stands_at T L 100 100 80 130 _ ltac:(lia) ltac:(lia) Hp)
    as (Ht2 & Hl2 & _).
  destruct Hp as (Ht1 & Hl1 & _).
  exists (pressed (pt 100 100) lay el),
         (moved (pt 80 130) (pressed (pt 100 100) lay el)).
  split; [exact H1|].
  split; [rewrite Hl1, Hl; reflexivity|].
  split; [rewrite Ht1, Ht; reflexivity|].
  split; [apply lookup_insert_eq|].
  split; [exact Hl2|]. split; [exact Ht2|].
  cbn [statusText with_elem].
  apply (statusText_updateStatus _ msg). exact Hst.
Qed.

Lemma drag_scenario_witness :
  exists el1 el2,
    elems (step sample_host placed_world
             (Pointerdown "plant1" (pt 100 100) no_layout)) !! "plant1" = Some el1 /\
    style_left (style el1) = "300px" /\
    style_top (style el1) = "200px" /\
    elems (step sample_host
             (step sample_host placed_world
                (Pointerdown "plant1" (pt 100 100) no_layout))
             (Pointermove (pt 80 130))) !! "plant1" = Some el2 /\
    style_left (style el2) = toString (Fin (inject_Z (300 - 20))) +:+ "px" /\
    style_top (style el2) = toString (Fin (inject_Z (200 + 30))) +:+ "px" /\
    statusText (step sample_host
             (step sample_host placed_world
                (Pointerdown "plant1" (pt 100 100) no_layout))
             (Pointermove (pt 80 130))) = Some "Dragging plant1 | X:80, Y:130".
Proof.
  apply (drag_scenario sample_host placed_world
           (init_elem {| style_position := "absolute"; style_top := "200px";
                         style_left := "300px"; style_transform := "";
                         var_scale := ""; var_rotation := "" |})
           no_layout idle_message 200 300).
  - vm_compute. reflexivity.
  - reflexivity.
  - vm_compute. reflexivity.
  - vm_compute. reflexivity.
  - lia.
  - lia.
Defined.

(** The strings of the scenario on that page: [left] goes from 300px to
    280px and [top] from 200px to 230px. *)
Example drag_scenario_strings :
  toString (Fin (inject_Z (300 - 20))) +:+ "px" = "280px" /\
  toString (Fin (inject_Z (200 + 30))) +:+ "px" = "230px".
Proof. split; vm_compute; reflexivity. Qed.

Lemma drag_whole_pixels_witness :
  exists el',
    elems (run sample_host placed_world
             (Pointerdown "plant1" (pt 10 10) no_layout
              :: map whole_move [(15, 40); (-7, 3); (10, 10)])) !! "plant1"
      = Some el' /\
    style_top (style el')
      = px (whole (200 + (snd (List.last [(15, 40); (-7, 3); (10, 10)] (10, 10)) - 10))) /\
    style_left (style el')
      = px (whole (300 + (fst (List.last [(15, 40); (-7, 3); (10, 10)] (10, 10)) - 10))) /\
    (List.last [(15, 40); (-7, 3); (10, 10)] (10, 10) = (10, 10) ->
     style_top (style el') = "200px" /\ style_left (style el') = "300px").
Proof.
  apply (drag_whole_pixels sample_host placed_world "plant1"
           (init_elem {| style_position := "absolute"; style_top := "200px";
                         style_left := "300px"; style_transform := "";
                         var_scale := ""; var_rotation := "" |})
           no_layout 200 300 10 10 [(15, 40); (-7, 3); (10, 10)]).
  - vm_compute. reflexivity.
  - vm_compute. reflexivity.
  - vm_compute. reflexivity.
  - unfold small. lia.
  - unfold small. lia.
  - unfold small. lia.
  - unfold small. lia.
  - repeat constructor; unfold small; cbn [fst snd]; lia.
Defined.

Lemma always_positioned_witness :
  exists el,
    elems (run sample_host (load sample_doc (Some idle_message))
             [Pointerdown "plant1" (pt 5 5) no_layout; Pointermove (pt 9 2);
              Wheel "plant1" 1; Pointerup; Keydown "ArrowUp"]) !! "plant1"
      = Some el /\
    style_top (style el) <> EmptyString /\ style_left (style el) <> EmptyString.
Proof.
  destruct (elems (run sample_host (load sample_doc (Some idle_message))
             [Pointerdown "plant1" (pt 5 5) no_layout; Pointermove (pt 9 2);
              Wheel "plant1" 1; Pointerup; Keydown "ArrowUp"]) !! "plant1")
    as [el|] eqn:E.
  - exists el. split; [reflexivity|].
    exact (always_positioned sample_host sample_doc (Some idle_message) _
             "plant1" el E).
  - exfalso. vm_compute in E. discriminate E.
Defined.

Lemma sample_world_unscaled (id : string) (el : Elem) :
  elems sample_world !! id = Some el -> starts_unscaled el.
Proof.
  unfold sample_world. rewrite load_elems.
  destruct (bool_decide _); [|discriminate].
  destruct (sample_doc !! id) as [st|] eqn:E; [|discriminate].
  intros [= <-].
  assert (Hst : st = no_style).
  { unfold sample_doc in E.
    apply lookup_insert_Some in E as [[_ <-]|[_ E]]; [reflexivity|].
    apply lookup_insert_Some in E as [[_ <-]|[_ E]]; [reflexivity|].
    rewrite lookup_empty in E. discriminate E. }
  subst st. split; [reflexivity|].
  intros c H. vm_compute in H. discriminate H.
Qed.

Lemma scale_in_range_unless_NaN_witness :
  exists el,
    elems (run sample_host sample_world
             [Pointerdown "plant1" (pt 5 5) no_layout; Wheel "plant1" (-1);
              Wheel "plant1" (-1); Pointerup; Keydown "ArrowUp";
              Touchstart "plant1" [pt 0 0; pt 3 4] no_layout;
              Touchmove "plant1" [pt 0 0; pt 30 40]]) !! "plant1" = Some el /\
    (scale (vars el) = NaN \/ in_scale_range (scale (vars el))) /\
    in_scale_range (key_scale (style_transform (style el))).
Proof.
  destruct (elems (run sample_host sample_world
             [Pointerdown "plant1" (pt 5 5) no_layout; Wheel "plant1" (-1);
              Wheel "plant1" (-1); Pointerup; Keydown "ArrowUp";
              Touchstart "plant1" [pt 0 0; pt 3 4] no_layout;
              Touchmove "plant1" [pt 0 0; pt 30 40]]) !! "plant1")
    as [el|] eqn:E.
  - exists el. split; [reflexivity|].
    exact (scale_in_range_unless_NaN sample_host sample_world _ "plant1" el
             sample_world_unscaled E).
  - exfalso. vm_compute in E. discriminate E.
Defined.

(** ** The keyboard keeps its rotation in the transform string *)

Lemma turn_after_range (k : Z) (key : string) :
  0 <= k < 360 -> 0 <= turn_after k key < 360.
Proof.
  intros Hk. unfold turn_after.
  destruct (String.eqb key "ArrowLeft"); [apply Z.mod_pos_bound; lia|].
  destruct (String.eqb key "ArrowRight"); [apply Z.mod_pos_bound; lia|].
  exact Hk.
Qed.

Lemma key_switch_turn (key : string) (s0 : num) (k : Z) :
  0 <= k < 360 ->
  match key_switch key s0 (whole k) with
  | Some (_, r) => r = whole (turn_after k key)
  | None => turn_after k key = k
  end.
Proof.
  intros Hk. unfold key_switch, turn_after.
  destruct (String.eqb key "ArrowUp") eqn:E1.
  { apply String.eqb_eq in E1. subst key. reflexivity. }
  destruct (String.eqb key "ArrowDown") eqn:E2.
  { apply String.eqb_eq in E2. subst key. reflexivity. }
  change (Fin 15) with (whole 15). change (Fin 360) with (whole 360).
  destruct (String.eqb key "ArrowLeft").
  { rewrite whole_sub, whole_add, whole_rem_360 by lia. reflexivity. }
  destruct (String.eqb key "ArrowRight").
  { rewrite whole_add, whole_rem_360 by lia. reflexivity. }
  reflexivity.
Qed.

Lemma toString_whole_digits (z : Z) :
  0 <= z < 10 ^ 21 -> all_chars is_digit (toString (whole z)) = true.
Proof.
  intros Hz. rewrite toString_whole by lia.
  destruct (z =? 0); [reflexivity|].
  replace (z <? 0) with false by (symmetry; apply Z.ltb_ge; lia).
  apply int_string_spec. lia.
Qed.

Lemma parseFloat_whole (z : Z) :
  0 <= z < 10 ^ 21 -> parseFloat (toString (whole z)) = whole z.
Proof.
  intros Hz. rewrite toString_whole by lia.
  destruct (z =? 0) eqn:E0.
  - apply Z.eqb_eq in E0. subst z. reflexivity.
  - replace (z <? 0) with false by (symmetry; apply Z.ltb_ge; lia).
    destruct (int_string_spec z ltac:(lia)) as [Hall [Hne Hval]].
    unfold parseFloat.
    assert (Hsign : read_sign (skip_spaces (int_string z)) = (false, int_string z)).
    { destruct (int_string z) as [|c D]; [contradiction|].
      cbn [all_chars] in Hall. apply andb_true_iff in Hall as [Hc _].
      cbn [skip_spaces]. rewrite (digit_not_space c Hc).
      apply digit_no_sign. exact Hc. }
    rewrite Hsign.
    assert (Hinf : String.prefix "Infinity" (int_string z) = false).
    { destruct (int_string z) as [|c D]; [contradiction|].
      cbn [all_chars] in Hall. apply andb_true_iff in Hall as [Hc _].
      apply digit_not_Infinity. exact Hc. }
    rewrite Hinf. rewrite <- (append_empty_r (int_string z)) at 1.
    rewrite (read_digits_spec (int_string z) "" Hall eq_refl), Hval.
    destruct (int_string z) as [|c D]; [contradiction|].
    cbn [String.length Nat.add]. change (read_exponent "") with 0.
    rewrite <- fin_whole. apply fin_eq.
    unfold Qscale10. cbn [Z.ltb Z.compare]. change (Qpow10 0) with 1%Q.
    change (Qpow10 (Z.of_nat 0)) with 1%Q. change (inject_Z 0) with 0%Q.
    field.
Qed.

Lemma digit_rotate_class (c : ascii) : is_digit c = true -> rotate_class c = true.
Proof. intros H. unfold rotate_class. rewrite H. reflexivity. Qed.


Lemma key_rotation_written (s : num) (k : Z) :
  0 <= k < 10 ^ 21 -> key_rotation (key_transform s (whole k)) = whole k.
Proof.
  intros Hk. unfold key_rotation. rewrite rotateMatch_key.
  rewrite (all_chars_impl _ _ _ digit_rotate_class (toString_whole_digits k Hk)).
  apply parseFloat_whole. exact Hk.
Qed.

(** X12: with an element selected whose transform reads back as a rotation of
    whole degrees in [0, 360), any sequence of key presses leaves a
    transform that reads back as the rotation obtained by applying the
    arrow arithmetic key by key: the string written by one key press is
    read back without loss by the next. The closure of the element is
    never touched. *)
Theorem keys_turn_whole_degrees (host : Host) (keys : list string) :
  forall (w : World) (id : string) (el : Elem) (k : Z),
    selectedElement w = Some id ->
    elems w !! id = Some el ->
    key_rotation (style_transform (style el)) = whole k ->
    0 <= k < 360 ->
    exists el',
      elems (run host w (map Keydown keys)) !! id = Some el' /\
      key_rotation (style_transform (style el'))
        = whole (fold_left turn_after keys k) /\
      0 <= fold_left turn_after keys k < 360 /\
      vars el' = vars el.
Proof.
  induction keys as [|key keys IH]; intros w id el k Hsel Hel Hrot Hk.
  - exists el. cbn [map fold_left]. rewrite run_nil. auto.
  - cbn [map fold_left]. rewrite run_cons. cbn [step]. unfold keydown.
    rewrite Hsel, Hel. cbv zeta. rewrite Hrot.
    pose proof (key_switch_turn key (key_scale (style_transform (style el))) k Hk)
      as Hsw.
    destruct (key_switch key (key_scale (style_transform (style el))) (whole k))
      as [[s r]|].
    + subst r.
      destruct (IH (with_elem id
                      (with_style (with_transform
                                     (key_transform s (whole (turn_after k key)))) el) w)
                   id
                   (with_style (with_transform
                                  (key_transform s (whole (turn_after k key)))) el)
                   (turn_after k key))
        as [el' [Hel' [Hrot' [Hrange Hvars]]]].
      * exact Hsel.
      * apply lookup_insert_eq.
      * cbn [style with_style style_transform with_transform].
        apply key_rotation_written.
        pose proof (turn_after_range k key Hk). lia.
      * apply turn_after_range. exact Hk.
      * exists el'. auto.
    + rewrite Hsw. apply IH; assumption.
Qed.

Lemma keys_turn_whole_degrees_witness :
  exists el',
    elems (run sample_host selected_world
             (map Keydown ["ArrowLeft"; "a"; "ArrowRight"; "ArrowUp"; "ArrowRight"]))
      !! "plant1" = Some el' /\
    key_rotation (style_transform (style el'))
      = whole (fold_left turn_after
                 ["ArrowLeft"; "a"; "ArrowRight"; "ArrowUp"; "ArrowRight"] 0) /\
    0 <= fold_left turn_after
           ["ArrowLeft"; "a"; "ArrowRight"; "ArrowUp"; "ArrowRight"] 0 < 360 /\
    vars el'
    = vars (with_dragging None (pressed (pt 1 1) no_layout (init_elem no_style))).
Proof.
  apply (keys_turn_whole_degrees sample_host
           ["ArrowLeft"; "a"; "ArrowRight"; "ArrowUp"; "ArrowRight"]
           selected_world "plant1"
           (with_dragging None (pressed (pt 1 1) no_layout (init_elem no_style))) 0).
  - vm_compute. reflexivity.
  - vm_compute. reflexivity.
  - vm_compute. reflexivity.
  - lia.
Defined.

(** ** A pointer-down reads back what was written *)

Lemma rotateMatch_written (t : string) (s : num) (k : Z) :
  t = full_transform s (whole k) \/ t = key_transform s (whole k) ->
  0 <= k < 10 ^ 21 ->
  rotateMatch t = Some (toString (whole k)).
Proof.
  intros [-> | ->] Hk; [rewrite rotateMatch_full | rewrite rotateMatch_key];
    rewrite (all_chars_impl _ _ _ digit_rotate_class (toString_whole_digits k Hk));
    reflexivity.
Qed.

(** X13: a pointer-down on an element whose transform was written by
    [updateTransform] or by the key handler, with a rotation of whole
    degrees, stores exactly that rotation in the closure: what the keyboard
    turned is what the wheel and the right-click continue from. *)
Theorem pointerdown_reads_written_rotation (host : Host) (w : World)
    (id : string) (el : Elem) (p : Point) (lay : Layout) (s : num) (k : Z) :
  elems w !! id = Some el ->
  style_transform (style el) = full_transform s (whole k) \/
  style_transform (style el) = key_transform s (whole k) ->
  0 <= k < 10 ^ 21 ->
  exists el',
    elems (step host w (Pointerdown id p lay)) !! id = Some el' /\
    rotation (vars el') = whole k /\
    style_transform (style el') = style_transform (style el).
Proof.
  intros Hel Ht Hk. rewrite (step_pointerdown host w id el) by exact Hel.
  exists (pressed p lay el). split; [apply lookup_insert_eq|].
  unfold pressed, reparse, track_position.
  rewrite (rotateMatch_written _ s k Ht Hk). split.
  - cbn [vars with_current rotation with_rotation]. apply parseFloat_whole. exact Hk.
  - cbn [style]. destruct (is_empty_string _ || _); reflexivity.
Qed.

Lemma pointerdown_reads_written_rotation_witness :
  exists el',
    elems (step sample_host turned_world (Pointerdown "plant1" (pt 2 2) no_layout))
      !! "plant1" = Some el' /\
    rotation (vars el') = whole 15 /\
    style_transform (style el') = "scale(1) rotate(15deg)".
Proof.
  apply (pointerdown_reads_written_rotation sample_host turned_world "plant1"
           (with_style (with_transform "scale(1) rotate(15deg)")
              (with_dragging None (pressed (pt 1 1) no_layout (init_elem no_style))))
           (pt 2 2) no_layout (Fin 1) 15).
  - vm_compute. reflexivity.
  - right. vm_compute. reflexivity.
  - lia.
Defined.

(** ** The key handler reads the transform and writes it back (C6) *)



(** The strings the keys write on the sample page: from
    [scale(1) rotate(15deg)], ArrowRight writes 30 degrees and ArrowUp the
    scale 1.1; from the centring transform, which has neither component,
    ArrowLeft writes scale 1 and 345 degrees. *)
Example keydown_strings :
  exists el1 el2 el3,
    elems (step sample_host turned_world (Keydown "ArrowRight")) !! "plant1"
      = Some el1 /\
    style_transform (style el1) = "scale(1) rotate(30deg)" /\
    elems (step sample_host turned_world (Keydown "ArrowUp")) !! "plant1"
      = Some el2 /\
    style_transform (style el2) = "scale(1.1) rotate(15deg)" /\
    elems (step sample_host selected_world (Keydown "ArrowLeft")) !! "plant1"
      = Some el3 /\
    style_transform (style el3) = "scale(1) rotate(345deg)".
Proof.
  eexists _, _, _. split; [vm_compute; reflexivity|]. split; [reflexivity|].
  split; [vm_compute; reflexivity|]. split; [reflexivity|].
  split; [vm_compute; reflexivity|]. reflexivity.
Qed.
